(** * AsyncAction: the timer-reuse and rescheduling protocol

    A shallow embedding of [src/vendor/rxjs/scheduler/AsyncAction.js].

    JavaScript values are an inductive type with the language's truthiness,
    loose null test and strict equality; the objects the class mutates (the
    actions, the schedulers' [actions] arrays, the runtime's interval table)
    live in an explicit store that every method threads through a small
    state-and-exception monad. *)

From Stdlib Require Import ZArith List String Bool Arith Lia.
From Stdlib Require Import FunctionalExtensionality.
Import ListNotations.

(** ** JavaScript values *)

(** Numbers are modelled by integers plus [NaN] (delays and timer handles are
    whole numbers of milliseconds and counters); [VError v] is the object built
    by [new Error(v)], [VTypeError] the one the engine throws when a property
    of [null] is read or a non-function is called. *)
Inductive value : Type :=
| VUndefined
| VNull
| VBool (b : bool)
| VNum (n : Z)
| VNaN
| VStr (s : string)
| VObj (ref : nat)
| VError (arg : value)
| VTypeError (msg : string).

(** ToBoolean. *)
Definition truthy (v : value) : bool :=
  match v with
  | VUndefined | VNull | VNaN => false
  | VBool b => b
  | VNum n => negb (n =? 0)%Z
  | VStr s => negb (s =? "")%string
  | VObj _ | VError _ | VTypeError _ => true
  end.

(** [v == null]: true of [null] and [undefined] only. *)
Definition is_nullish (v : value) : bool :=
  match v with
  | VUndefined | VNull => true
  | _ => false
  end.

Fixpoint value_eqb (a b : value) : bool :=
  match a, b with
  | VUndefined, VUndefined => true
  | VNull, VNull => true
  | VBool x, VBool y => Bool.eqb x y
  | VNum x, VNum y => (x =? y)%Z
  | VNaN, VNaN => true
  | VStr x, VStr y => (x =? y)%string
  | VObj x, VObj y => (x =? y)%nat
  | VError x, VError y => value_eqb x y
  | VTypeError x, VTypeError y => (x =? y)%string
  | _, _ => false
  end.

(** [a === b]: same type and same value, except that [NaN] equals nothing. *)
Definition strict_eq (a b : value) : bool :=
  match a, b with
  | VNaN, _ | _, VNaN => false
  | _, _ => value_eqb a b
  end.

(** [a !== b]. *)
Definition strict_neq (a b : value) : bool := negb (strict_eq a b).

(** [a && b] and [a || b] on already evaluated operands. *)
Definition js_and (a b : value) : value := if truthy a then b else a.
Definition js_or (a b : value) : value := if truthy a then a else b.

(** A parameter declared [p = d] takes [d] when the argument is [undefined]. *)
Definition default_arg (v d : value) : value :=
  match v with
  | VUndefined => d
  | _ => v
  end.

(** ** Work

    The user's callable is run as [this.work(state)].  What it does to the
    objects of this file is a sequence of calls of the public methods
    ([schedule], [unsubscribe]) on actions, after which it returns or throws. *)
Inductive call : Type :=
| CallSchedule (target : nat) (st dl : value)
| CallUnsubscribe (target : nat).

Inductive completion : Type :=
| Normal
| Throw (e : value).

(** The callable, given its [this] and its argument. *)
Definition Work : Type := nat -> value -> list call * completion.

(** ** The action object *)

(** The fields of an [AsyncAction]: [scheduler], [work] and [closed] come from
    the base class, the other four from
    [AsyncAction_tsickle_Closure_declarations]. *)
Record Action : Type := mkAction {
  scheduler : option nat;
  work : option Work;
  closed : bool;
  id : value;
  state : value;
  delay : value;
  pending : bool
}.

Definition set_scheduler (x : option nat) (a : Action) : Action :=
  mkAction x (work a) (closed a) (id a) (state a) (delay a) (pending a).
Definition set_work (x : option Work) (a : Action) : Action :=
  mkAction (scheduler a) x (closed a) (id a) (state a) (delay a) (pending a).
Definition set_closed (x : bool) (a : Action) : Action :=
  mkAction (scheduler a) (work a) x (id a) (state a) (delay a) (pending a).
Definition set_id (x : value) (a : Action) : Action :=
  mkAction (scheduler a) (work a) (closed a) x (state a) (delay a) (pending a).
Definition set_state (x : value) (a : Action) : Action :=
  mkAction (scheduler a) (work a) (closed a) (id a) x (delay a) (pending a).
Definition set_delay (x : value) (a : Action) : Action :=
  mkAction (scheduler a) (work a) (closed a) (id a) (state a) x (pending a).
Definition set_pending (x : bool) (a : Action) : Action :=
  mkAction (scheduler a) (work a) (closed a) (id a) (state a) (delay a) x.

(** [constructor(scheduler, work)]: the fields the declarations only name
    ([id], [state], [delay]) start [undefined]. *)
Definition new_AsyncAction (sched : nat) (wk : Work) : Action :=
  mkAction (Some sched) (Some wk) false VUndefined VUndefined VUndefined false.

(** ** The runtime's interval timers *)

(** A registered interval: its handle, the bound callback
    [scheduler.flush.bind(scheduler, action)] and its period. *)
Record Timer : Type := mkTimer {
  handle : Z;
  flush_scheduler : nat;
  flush_action : nat;
  period : value
}.

(** The calls the runtime received, oldest first. *)
Inductive event : Type :=
| SetInterval (t : Timer)
| ClearInterval (arg : value).

Record Runtime : Type := mkRuntime {
  next_handle : Z;
  intervals : list Timer;
  log : list event
}.

(** Modelled from the spec: the runtime's [root.setInterval], which is not
    part of the source.  It registers a repeating timer and returns its
    handle; handles are issued from a counter, so that no handle is issued
    twice. *)
Definition setInterval (r : Runtime) (sched action : nat) (dl : value)
  : value * Runtime :=
  let t := mkTimer (next_handle r) sched action dl in
  (VNum (next_handle r),
   mkRuntime (next_handle r + 1) (t :: intervals r) (log r ++ [SetInterval t])).

Definition has_handle (v : value) (t : Timer) : bool :=
  value_eqb v (VNum (handle t)).

(** Modelled from the spec: the runtime's [root.clearInterval], which is not
    part of the source.  It cancels the timer of that handle when there is
    one, and returns [undefined]. *)
Definition clearInterval (r : Runtime) (v : value) : value * Runtime :=
  (VUndefined,
   mkRuntime (next_handle r)
             (filter (fun t => negb (has_handle v t)) (intervals r))
             (log r ++ [ClearInterval v])).

(** [v] is the handle of a registered timer. *)
Definition live (r : Runtime) (v : value) : bool :=
  existsb (has_handle v) (intervals r).

(** Handles are positive and below the counter. *)
Definition runtime_ok (r : Runtime) : bool :=
  (0 <? next_handle r)%Z &&
  forallb (fun t => (0 <? handle t)%Z && (handle t <? next_handle r)%Z)
          (intervals r).

(** The number of timers requested so far. *)
Definition requested (r : Runtime) : nat :=
  List.length (filter (fun e => match e with SetInterval _ => true | _ => false end)
                      (log r)).

(** The number of cancellations asked for so far. *)
Definition cancelled (r : Runtime) : nat :=
  List.length (filter (fun e => match e with ClearInterval _ => true | _ => false end)
                      (log r)).

Definition fresh_runtime : Runtime := mkRuntime 1 [] [].

(** ** The store *)

(** Objects are named by numbers: [heap] gives each action its fields,
    [actions s] is the array [scheduler.actions] of scheduler [s] (it holds
    action names, compared by identity), [root] is the runtime. *)
Record World : Type := mkWorld {
  heap : nat -> Action;
  actions : nat -> list nat;
  root : Runtime
}.

Definition upd {A : Type} (f : nat -> A) (k : nat) (x : A) : nat -> A :=
  fun k' => if (k' =? k)%nat then x else f k'.

Definition set_action (this : nat) (a : Action) (w : World) : World :=
  mkWorld (upd (heap w) this a) (actions w) (root w).

Definition modify (this : nat) (f : Action -> Action) (w : World) : World :=
  set_action this (f (heap w this)) w.

Definition set_actions (s : nat) (l : list nat) (w : World) : World :=
  mkWorld (heap w) (upd (actions w) s l) (root w).

Definition set_root (r : Runtime) (w : World) : World :=
  mkWorld (heap w) (actions w) r.

(** ** Computations: state with exceptions *)

(** A call either returns a value or throws one; both leave a store. *)
Inductive Outcome (A : Type) : Type :=
| Ret (a : A) (w : World)
| Thr (e : value) (w : World).

Arguments Ret {A} a w.
Arguments Thr {A} e w.

Definition M (A : Type) : Type := World -> Outcome A.

Definition ret {A : Type} (a : A) : M A := fun w => Ret a w.

Definition throw {A : Type} (e : value) : M A := fun w => Thr e w.

Definition bind {A B : Type} (m : M A) (k : A -> M B) : M B :=
  fun w =>
    match m w with
    | Ret a w' => k a w'
    | Thr e w' => Thr e w'
    end.

(** [try { m } catch (e) { h e }]. *)
Definition try_catch {A : Type} (m : M A) (h : value -> M A) : M A :=
  fun w =>
    match m w with
    | Ret a w' => Ret a w'
    | Thr e w' => h e w'
    end.

Definition get (this : nat) : M Action := fun w => Ret (heap w this) w.

Definition assign (this : nat) (f : Action -> Action) : M unit :=
  fun w => Ret tt (modify this f w).

Definition world_of {A : Type} (o : Outcome A) : World :=
  match o with
  | Ret _ w => w
  | Thr _ w => w
  end.

Declare Scope js_scope.
Delimit Scope js_scope with js.
Notation "x <- m ;; k" := (bind m (fun x => k))
  (at level 61, m at next level, right associativity) : js_scope.
Notation "m ;; k" := (bind m (fun _ => k))
  (at level 61, right associativity) : js_scope.
Open Scope js_scope.

(** ** Arrays *)

(** [l.indexOf(x)]: the first index holding [x], or -1. *)
Fixpoint indexOf (l : list nat) (x : nat) : Z :=
  match l with
  | [] => (-1)%Z
  | y :: l' =>
      if (y =? x)%nat then 0%Z
      else let i := indexOf l' x in
           if (i =? -1)%Z then (-1)%Z else (i + 1)%Z
  end.

(** [l.splice(start, 1)]: a negative [start] counts from the end, and the
    start is clamped to the array. *)
Definition splice1 (l : list nat) (start : Z) : list nat :=
  let len := Z.of_nat (List.length l) in
  let from := if (start <? 0)%Z then Z.max (len + start) 0 else Z.min start len in
  firstn (Z.to_nat from) l ++ skipn (S (Z.to_nat from)) l.

(** ** The methods of AsyncAction *)

(** [requestAsyncId(scheduler, id, delay = 0)].  Reading [scheduler.flush] of
    a [null] scheduler throws. *)
Definition requestAsyncId (this : nat) (sched : option nat) (i dl : value)
  : M value :=
  let dl := default_arg dl (VNum 0) in
  match sched with
  | None => throw (VTypeError "Cannot read property 'flush' of null")
  | Some s =>
      fun w =>
        let (h, r) := setInterval (root w) s this dl in
        Ret h (set_root r w)
  end.

(** [recycleAsyncId(scheduler, id, delay = 0)]. *)
Definition recycleAsyncId (this : nat) (sched : option nat) (i dl : value)
  : M value :=
  let dl := default_arg dl (VNum 0) in
  a <- get this ;;
  if strict_neq dl VNull && strict_eq (delay a) dl then ret i
  else
    fun w =>
      let (c, r) := clearInterval (root w) i in
      Ret (js_or (js_and c VUndefined) VUndefined) (set_root r w).

(** [schedule(state, delay = 0)]; it returns [this]. *)
Definition schedule (this : nat) (st dl : value) : M nat :=
  let dl := default_arg dl (VNum 0) in
  a <- get this ;;
  if closed a then ret this
  else
    assign this (set_state st) ;;
    assign this (set_pending true) ;;
    let i := id a in
    let sched := scheduler a in
    (if negb (is_nullish i)
     then r <- recycleAsyncId this sched i dl ;; assign this (set_id r)
     else ret tt) ;;
    assign this (set_delay dl) ;;
    a1 <- get this ;;
    (if truthy (id a1) then assign this (set_id (id a1))
     else a2 <- get this ;;
          r <- requestAsyncId this sched (id a2) dl ;;
          assign this (set_id r)) ;;
    ret this.

(** [_unsubscribe()].  Reading [scheduler.actions] of a [null] scheduler
    throws. *)
Definition _unsubscribe (this : nat) : M unit :=
  a <- get this ;;
  let i := id a in
  let sched := scheduler a in
  match sched with
  | None => throw (VTypeError "Cannot read property 'actions' of null")
  | Some s =>
      fun w =>
        let index := indexOf (actions w s) this in
        (assign this (set_work None) ;;
         assign this (set_delay VNull) ;;
         assign this (set_state VNull) ;;
         assign this (set_pending false) ;;
         assign this (set_scheduler None) ;;
         (if negb (index =? -1)%Z
          then fun w' => Ret tt (set_actions s (splice1 (actions w' s) index) w')
          else ret tt) ;;
         (if negb (is_nullish i)
          then r <- recycleAsyncId this sched i VNull ;; assign this (set_id r)
          else ret tt)) w
  end.

(** Modelled from the spec: [unsubscribe()] of the base class, which is not
    part of the source.  It moves [closed] to true once and runs the
    [_unsubscribe] step on that first call only; on a closed action it does
    nothing. *)
Definition unsubscribe (this : nat) : M unit :=
  a <- get this ;;
  if closed a then ret tt
  else assign this (set_closed true) ;; _unsubscribe this.

(** One call made by the work. *)
Definition run_call (c : call) : M unit :=
  match c with
  | CallSchedule target st dl => schedule target st dl ;; ret tt
  | CallUnsubscribe target => unsubscribe target
  end.

Fixpoint run_calls (cs : list call) : M unit :=
  match cs with
  | [] => ret tt
  | c :: cs' => run_call c ;; run_calls cs'
  end.

(** [this.work(state)]: calling a [work] that is [null] throws. *)
Definition call_work (this : nat) (st : value) : M unit :=
  a <- get this ;;
  match work a with
  | None => throw (VTypeError "this.work is not a function")
  | Some wk =>
      let (cs, fin) := wk this st in
      run_calls cs ;;
      match fin with
      | Normal => ret tt
      | Throw e => throw e
      end
  end.

(** The value the [catch] clause stores in [errorValue] when [e] was thrown:
    [!!e && e || new Error(e)]. *)
Definition caught (e : value) : value :=
  js_or (js_and (VBool (truthy e)) e) (VError e).

(** [_execute(state, delay)]: [undefined] unless the work threw. *)
Definition _execute (this : nat) (st dl : value) : M value :=
  r <- try_catch (call_work this st ;; ret (false, VUndefined))
                 (fun e => ret (true, caught e)) ;;
  let (errored, errorValue) := r in
  if errored then unsubscribe this ;; ret errorValue
  else ret VUndefined.

(** [execute(state, delay)]. *)
Definition execute (this : nat) (st dl : value) : M value :=
  a <- get this ;;
  if closed a then ret (VError (VStr "executing a cancelled action"))
  else
    assign this (set_pending false) ;;
    error <- _execute this st dl ;;
    if truthy error then ret error
    else
      a1 <- get this ;;
      if Bool.eqb (pending a1) false && negb (is_nullish (id a1))
      then r <- recycleAsyncId this (scheduler a1) (id a1) VNull ;;
           assign this (set_id r) ;;
           ret VUndefined
      else ret VUndefined.

(** Calling [unsubscribe()] [n] times in a row. *)
Fixpoint unsubscribe_times (n : nat) (this : nat) : M unit :=
  match n with
  | O => ret tt
  | S n' => unsubscribe this ;; unsubscribe_times n' this
  end.

(** The calls a client can make on an action; [execute] is what the
    scheduler's [flush] runs when the action's timer fires. *)
Inductive api : Type :=
| ApiSchedule (target : nat) (st dl : value)
| ApiExecute (target : nat) (st dl : value)
| ApiUnsubscribe (target : nat).

Definition run_api (c : api) : M unit :=
  match c with
  | ApiSchedule target st dl => schedule target st dl ;; ret tt
  | ApiExecute target st dl => execute target st dl ;; ret tt
  | ApiUnsubscribe target => unsubscribe target
  end.

(** A sequence of calls, each caller going on whatever the previous call
    did (a thrown error is the caller's to handle). *)
Fixpoint after_apis (cs : list api) (w : World) : World :=
  match cs with
  | [] => w
  | c :: cs' => after_apis cs' (world_of (run_api c w))
  end.

(** ** What a method leaves behind, in closed form *)

(** [recycleAsyncId]'s test: the delay is not [null] and is the recorded one. *)
Definition keeps (a : Action) (d : value) : bool :=
  strict_neq d VNull && strict_eq (delay a) d.

(** The recycling step of [schedule] keeps the timer the action holds. *)
Definition survives (a : Action) (d : value) : bool :=
  negb (is_nullish (id a)) && keeps a d.

(** The store after cancelling the timer of [this] and clearing its [id]. *)
Definition disarmed (this : nat) (w : World) : World :=
  set_root (snd (clearInterval (root w) (id (heap w this))))
           (modify this (set_id VUndefined) w).

(** The store after requesting a timer for [this] and recording its handle. *)
Definition armed (this s : nat) (d : value) (w : World) : World :=
  set_root (snd (setInterval (root w) s this d))
           (modify this (set_id (VNum (next_handle (root w)))) w).

(** The fields [schedule] writes whatever happens to the timer. *)
Definition noted (st d : value) (a : Action) : Action :=
  set_delay d (set_pending true (set_state st a)).

(** The array without the first occurrence of [x]. *)
Fixpoint remove_first (x : nat) (l : list nat) : list nat :=
  match l with
  | [] => []
  | y :: l' => if (y =? x)%nat then l' else y :: remove_first x l'
  end.

(** The fields of an action after [_unsubscribe]. *)
Definition torn (a : Action) : Action :=
  mkAction None None (closed a) (if is_nullish (id a) then id a else VUndefined)
           VNull VNull false.

(** The store after [_unsubscribe] ran on the action [this] of scheduler [s]. *)
Definition torn_down_world (this s : nat) (w : World) : World :=
  mkWorld (upd (heap w) this (torn (heap w this)))
          (upd (actions w) s (remove_first this (actions w s)))
          (if is_nullish (id (heap w this)) then root w
           else snd (clearInterval (root w) (id (heap w this)))).

(** The store after the post-execution check of [execute]. *)
Definition settled (this : nat) (w : World) : World :=
  if Bool.eqb (pending (heap w this)) false && negb (is_nullish (id (heap w this)))
  then disarmed this w else w.

(** The store after the open action [this] of scheduler [s], which holds no
    timer, is closed and taken out of the scheduler's array. *)
Definition closed_off (this s : nat) (w : World) : World :=
  mkWorld (upd (heap w) this
               (mkAction None None true (id (heap w this)) VNull VNull false))
          (upd (actions w) s (remove_first this (actions w s)))
          (root w).

(** ** Well-formed stores *)

(** An action after teardown: its references are released and it holds no
    timer. *)
Definition torn_down (a : Action) : Prop :=
  work a = None /\ state a = VNull /\ delay a = VNull /\ pending a = false
  /\ scheduler a = None /\ is_nullish (id a) = true.

(** The stores the methods build, starting from actions made by the
    constructor: a closed action is torn down and an open one has its
    scheduler; an action's [id] is present exactly when a timer bound to that
    action is registered, and then it is that timer's handle; handles are not
    shared; a scheduler's array holds open actions of that scheduler, each at
    most once. *)
Record world_ok (w : World) : Prop := mk_world_ok {
  ok_closed : forall k, closed (heap w k) = true -> torn_down (heap w k);
  ok_open : forall k, closed (heap w k) = false -> scheduler (heap w k) <> None;
  ok_runtime : runtime_ok (root w) = true;
  ok_handles : NoDup (map handle (intervals (root w)));
  ok_timer : forall t, In t (intervals (root w)) ->
                       id (heap w (flush_action t)) = VNum (handle t);
  ok_id : forall k, is_nullish (id (heap w k)) = false ->
                    exists t, In t (intervals (root w)) /\ flush_action t = k
                              /\ id (heap w k) = VNum (handle t);
  ok_queue : forall s k, In k (actions w s) ->
                         closed (heap w k) = false /\ scheduler (heap w k) = Some s;
  ok_once : forall s, NoDup (actions w s)
}.

(** The timers bound to an action. *)
Definition timers_of (this : nat) (r : Runtime) : list Timer :=
  filter (fun t => (flush_action t =? this)%nat) (intervals r).

(** A store with no timer, in which every name is a new action of scheduler
    [s] running [wk], and the array of [s] is [l]. *)
Definition new_world (s : nat) (wk : Work) (l : list nat) : World :=
  mkWorld (fun _ => new_AsyncAction s wk) (upd (fun _ => []) s l) fresh_runtime.

(** Three callables: one that does nothing, one that throws the falsy value
    [0], and a counter that reschedules itself every 50 ms. *)
Definition idle : Work := fun _ _ => ([], Normal).

Definition failing : Work := fun _ _ => ([], Throw (VNum 0)).

Definition succ_value (v : value) : value :=
  match v with
  | VNum n => VNum (n + 1)
  | _ => VNaN
  end.

Definition counter : Work :=
  fun this st => ([CallSchedule this (succ_value st) (VNum 50)], Normal).

(** The action a call of the work is made on. *)
Definition call_target (c : call) : nat :=
  match c with
  | CallSchedule target _ _ => target
  | CallUnsubscribe target => target
  end.

(** [m] reopens no action: whatever it returns or throws, the actions that
    were closed before are closed after. *)
Definition keeps_closed {A : Type} (m : M A) : Prop :=
  forall w k, closed (heap w k) = true -> closed (heap (world_of (m w)) k) = true.

(** The timer fires: the scheduler's [flush] runs [execute] with the state
    and delay the action holds. *)
Definition fire (this : nat) (w : World) : Outcome value :=
  execute this (state (heap w this)) (delay (heap w this)) w.

(** Every registered timer runs at the delay its action records and flushes
    the scheduler its action belongs to. *)
Definition timers_match (w : World) : Prop :=
  forall t, In t (intervals (root w)) ->
            period t = delay (heap w (flush_action t))
            /\ scheduler (heap w (flush_action t)) = Some (flush_scheduler t).

(** The same, but for the timers of [this]. *)
Definition timers_match_but (this : nat) (w : World) : Prop :=
  forall t, In t (intervals (root w)) -> flush_action t <> this ->
            period t = delay (heap w (flush_action t))
            /\ scheduler (heap w (flush_action t)) = Some (flush_scheduler t).

(** An action that holds a timer is pending. *)
Definition pending_if_timer (w : World) (k : nat) : Prop :=
  is_nullish (id (heap w k)) = false -> pending (heap w k) = true.

(** * Facts about values *)

Lemma value_eqb_refl (v : value) : value_eqb v v = true.
Proof.
  induction v; simpl; auto.
  - now destruct b.
  - apply Z.eqb_refl.
  - apply String.eqb_refl.
  - apply Nat.eqb_refl.
  - apply String.eqb_refl.
Qed.

Lemma value_eqb_eq (u v : value) : value_eqb u v = true <-> u = v.
Proof.
  split.
  - revert v; induction u; intros v; destruct v; simpl; intros E;
      try discriminate; auto.
    + apply Bool.eqb_prop in E; now subst.
    + apply Z.eqb_eq in E; now subst.
    + apply String.eqb_eq in E; now subst.
    + apply Nat.eqb_eq in E; now subst.
    + f_equal; auto.
    + apply String.eqb_eq in E; now subst.
  - intros ->; apply value_eqb_refl.
Qed.

Lemma strict_eq_true (u v : value) :
  strict_eq u v = true <-> u = v /\ u <> VNaN.
Proof.
  split.
  - intros E; destruct u, v; simpl in E; try discriminate;
      (split; [apply value_eqb_eq; exact E | discriminate]).
  - intros [-> E]; destruct v; try (now elim E);
      unfold strict_eq; apply value_eqb_refl.
Qed.

Lemma nullish_falsy (v : value) : is_nullish v = true -> truthy v = false.
Proof. destruct v; simpl; intros H; auto; discriminate. Qed.

(** Whatever [clearInterval] returns, [c && undefined || undefined] is
    [undefined]. *)
Lemma clear_result_undefined (c : value) :
  js_or (js_and c VUndefined) VUndefined = VUndefined.
Proof.
  unfold js_or, js_and; destruct (truthy c) eqn:E; simpl; [|rewrite E];
    reflexivity.
Qed.

Lemma caught_cases (e : value) :
  caught e = if truthy e then e else VError e.
Proof.
  unfold caught, js_or, js_and; simpl.
  destruct (truthy e) eqn:E; simpl; [rewrite E|]; reflexivity.
Qed.

Lemma caught_truthy (e : value) : truthy (caught e) = true.
Proof. rewrite caught_cases; destruct (truthy e) eqn:E; auto. Qed.

(** * Facts about the store *)

Lemma upd_same {A : Type} (f : nat -> A) k x : upd f k x k = x.
Proof. unfold upd; now rewrite Nat.eqb_refl. Qed.

Lemma upd_other {A : Type} (f : nat -> A) k k' x : k' <> k -> upd f k x k' = f k'.
Proof. unfold upd; intros H; apply Nat.eqb_neq in H; now rewrite H. Qed.

Lemma upd_upd {A : Type} (f : nat -> A) k x y : upd (upd f k x) k y = upd f k y.
Proof. extensionality j; unfold upd; now destruct (j =? k)%nat. Qed.

Lemma upd_id {A : Type} (f : nat -> A) k : upd f k (f k) = f.
Proof.
  extensionality j; unfold upd; destruct (j =? k)%nat eqn:E; auto.
  apply Nat.eqb_eq in E; now subst.
Qed.

Lemma world_ext (w w' : World) :
  (forall k, heap w k = heap w' k) ->
  (forall s, actions w s = actions w' s) ->
  root w = root w' ->
  w = w'.
Proof.
  destruct w, w'; simpl; intros H1 H2 ->; f_equal; extensionality j; auto.
Qed.

Lemma modify_heap_same this f w : heap (modify this f w) this = f (heap w this).
Proof. unfold modify, set_action; simpl; apply upd_same. Qed.

Lemma modify_heap_other this f w k :
  k <> this -> heap (modify this f w) k = heap w k.
Proof. unfold modify, set_action; simpl; intros; now apply upd_other. Qed.

Lemma modify_modify this f g w :
  modify this f (modify this g w) = modify this (fun a => f (g a)) w.
Proof.
  unfold modify, set_action; simpl; rewrite upd_same, upd_upd; reflexivity.
Qed.

Lemma modify_unchanged this f w : f (heap w this) = heap w this -> modify this f w = w.
Proof.
  intros E; unfold modify, set_action; rewrite E, upd_id; now destruct w.
Qed.

Lemma modify_root this f w : root (modify this f w) = root w.
Proof. reflexivity. Qed.

Lemma modify_actions this f w : actions (modify this f w) = actions w.
Proof. reflexivity. Qed.

Lemma armed_heap_same this s d w :
  heap (armed this s d w) this = set_id (VNum (next_handle (root w))) (heap w this).
Proof. unfold armed; cbn [heap set_root]; apply modify_heap_same. Qed.

Lemma armed_heap_other this s d w k :
  k <> this -> heap (armed this s d w) k = heap w k.
Proof. unfold armed; cbn [heap set_root]; apply modify_heap_other. Qed.

Lemma armed_root this s d w :
  root (armed this s d w) = snd (setInterval (root w) s this d).
Proof. reflexivity. Qed.

Lemma armed_actions this s d w : actions (armed this s d w) = actions w.
Proof. reflexivity. Qed.

Lemma disarmed_heap_same this w :
  heap (disarmed this w) this = set_id VUndefined (heap w this).
Proof. unfold disarmed; cbn [heap set_root]; apply modify_heap_same. Qed.

Lemma disarmed_heap_other this w k :
  k <> this -> heap (disarmed this w) k = heap w k.
Proof. unfold disarmed; cbn [heap set_root]; apply modify_heap_other. Qed.

Lemma disarmed_root this w :
  root (disarmed this w) = snd (clearInterval (root w) (id (heap w this))).
Proof. reflexivity. Qed.

Lemma disarmed_actions this w : actions (disarmed this w) = actions w.
Proof. reflexivity. Qed.

(** * The methods in closed form *)

Lemma default_arg_idem v d :
  is_nullish d = false -> default_arg (default_arg v d) d = default_arg v d.
Proof. destruct v; simpl; auto; destruct d; simpl; auto; discriminate. Qed.

Lemma recycleAsyncId_keep this sched i dl w :
  strict_neq (default_arg dl (VNum 0)) VNull
  && strict_eq (delay (heap w this)) (default_arg dl (VNum 0)) = true ->
  recycleAsyncId this sched i dl w = Ret i w.
Proof. intros E; unfold recycleAsyncId, bind, get; now rewrite E. Qed.

Lemma recycleAsyncId_clear this sched i dl w :
  strict_neq (default_arg dl (VNum 0)) VNull
  && strict_eq (delay (heap w this)) (default_arg dl (VNum 0)) = false ->
  recycleAsyncId this sched i dl w
  = Ret VUndefined (set_root (snd (clearInterval (root w) i)) w).
Proof. intros E; unfold recycleAsyncId, bind, get; now rewrite E. Qed.

(** A [null] delay always cancels: it is how [execute] and [_unsubscribe]
    drop the timer. *)
Lemma recycleAsyncId_null this sched i w :
  recycleAsyncId this sched i VNull w
  = Ret VUndefined (set_root (snd (clearInterval (root w) i)) w).
Proof. apply recycleAsyncId_clear; reflexivity. Qed.

Lemma schedule_closed this st dl w :
  closed (heap w this) = true -> schedule this st dl w = Ret this w.
Proof. intros E; unfold schedule, bind, get; now rewrite E. Qed.

Ltac store_eq :=
  apply world_ext;
  unfold armed, disarmed, modify, set_action, set_actions, set_root, upd; cbn;
  rewrite ?Nat.eqb_refl; auto;
  let k := fresh "k" in
  let E := fresh "E" in
  intros k;
  repeat match goal with
         | |- context [(k =? ?x)%nat] =>
             destruct (k =? x)%nat eqn:E;
             [apply Nat.eqb_eq in E; subst k | clear E]
         end; rewrite ?Nat.eqb_refl; cbn; auto.

Ltac fields :=
  repeat (rewrite ?modify_modify, ?modify_heap_same, ?upd_same,
            ?armed_heap_same, ?disarmed_heap_same, ?armed_root, ?disarmed_root,
            ?armed_actions, ?disarmed_actions, ?modify_root, ?modify_actions;
          cbn [scheduler work closed id state delay pending
               set_scheduler set_work set_closed set_id set_state set_delay
               set_pending noted negb andb orb]).

Lemma schedule_open this st dl s w :
  closed (heap w this) = false ->
  scheduler (heap w this) = Some s ->
  schedule this st dl w
  = Ret this
      (let d := default_arg dl (VNum 0) in
       let w1 := modify this (noted st d) w in
       let w2 := if survives (heap w this) d || is_nullish (id (heap w this))
                 then w1 else disarmed this w1 in
       if truthy (id (heap w2 this)) then w2 else armed this s d w2).
Proof.
  intros Hc Hs.
  assert (Hd : is_nullish (VNum 0) = false) by reflexivity.
  unfold schedule, recycleAsyncId, requestAsyncId.
  rewrite (default_arg_idem dl _ Hd).
  generalize (default_arg dl (VNum 0)); intros d.
  unfold bind, get, assign, ret; cbn beta iota zeta.
  rewrite Hc, Hs. unfold survives, keeps.
  destruct (is_nullish (id (heap w this))) eqn:Hn; cbn [negb andb orb].
  - fields. rewrite (nullish_falsy _ Hn). cbn; f_equal; store_eq.
  - fields.
    destruct (strict_neq d VNull && strict_eq (delay (heap w this)) d) eqn:Hk.
    + fields.
      destruct (truthy (id (heap w this))) eqn:Ht; cbn; f_equal; store_eq.
    + cbn. rewrite !upd_same. cbn. f_equal. store_eq.
Qed.

(** ** Arrays *)

Lemma indexOf_bounds l x : (-1 <= indexOf l x < Z.of_nat (List.length l))%Z.
Proof.
  induction l as [|y l IH]; simpl; [lia|].
  destruct (y =? x)%nat; [lia|].
  destruct (indexOf l x =? -1)%Z eqn:E; lia.
Qed.

Lemma indexOf_absent l x : indexOf l x = (-1)%Z <-> ~ In x l.
Proof.
  induction l as [|y l IH]; simpl; [tauto|].
  destruct (y =? x)%nat eqn:E.
  - apply Nat.eqb_eq in E; subst; split; [discriminate | tauto].
  - apply Nat.eqb_neq in E.
    pose proof (indexOf_bounds l x).
    destruct (indexOf l x =? -1)%Z eqn:E'.
    + apply Z.eqb_eq in E'; split; [intros _; tauto | auto].
    + apply Z.eqb_neq in E'; split; [lia | intros H'; exfalso; tauto].
Qed.

Lemma remove_first_absent l x : ~ In x l -> remove_first x l = l.
Proof.
  induction l as [|y l IH]; simpl; auto; intros H.
  destruct (y =? x)%nat eqn:E.
  - apply Nat.eqb_eq in E; tauto.
  - f_equal; tauto.
Qed.

Lemma splice1_indexOf l x :
  indexOf l x <> (-1)%Z -> splice1 l (indexOf l x) = remove_first x l.
Proof.
  induction l as [|y l IH]; simpl; [tauto|].
  destruct (y =? x)%nat eqn:E; [reflexivity|].
  pose proof (indexOf_bounds l x) as B.
  destruct (indexOf l x =? -1)%Z eqn:E'; [tauto|].
  apply Z.eqb_neq in E'; intros _.
  specialize (IH E'). revert IH.
  unfold splice1.
  replace (indexOf l x + 1 <? 0)%Z with false by (symmetry; apply Z.ltb_ge; lia).
  replace (indexOf l x <? 0)%Z with false by (symmetry; apply Z.ltb_ge; lia).
  rewrite !Z.min_l by (simpl List.length; lia).
  replace (Z.to_nat (indexOf l x + 1)) with (S (Z.to_nat (indexOf l x))) by lia.
  simpl. intros ->. reflexivity.
Qed.

(** What [_unsubscribe] does to the array, whether or not the action is in
    it. *)
Lemma dequeue_remove_first l x :
  (if negb (indexOf l x =? -1)%Z then splice1 l (indexOf l x) else l)
  = remove_first x l.
Proof.
  destruct (indexOf l x =? -1)%Z eqn:E; simpl.
  - apply Z.eqb_eq in E; symmetry; apply remove_first_absent.
    now apply indexOf_absent.
  - apply Z.eqb_neq in E; now apply splice1_indexOf.
Qed.

Lemma remove_first_In x y l : In y (remove_first x l) -> In y l.
Proof.
  induction l as [|z l IH]; simpl; auto.
  destruct (z =? x)%nat; simpl; tauto.
Qed.

Lemma remove_first_other x y l : y <> x -> In y l -> In y (remove_first x l).
Proof.
  intros N; induction l as [|z l IH]; simpl; auto.
  destruct (z =? x)%nat eqn:E; simpl.
  - apply Nat.eqb_eq in E; subst; intros [H|H]; [congruence | auto].
  - tauto.
Qed.

Lemma remove_first_NoDup x l : NoDup l -> NoDup (remove_first x l).
Proof.
  induction 1 as [|z l Hz Hl IH]; simpl; [constructor|].
  destruct (z =? x)%nat; auto.
  constructor; auto. intros H; apply Hz; eapply remove_first_In; eauto.
Qed.

Lemma remove_first_gone x l : NoDup l -> ~ In x (remove_first x l).
Proof.
  induction 1 as [|z l Hz Hl IH]; simpl; auto.
  destruct (z =? x)%nat eqn:E.
  - apply Nat.eqb_eq in E; now subst.
  - apply Nat.eqb_neq in E; simpl; tauto.
Qed.

(** The array loses exactly one entry for [x], the first, when it has one. *)
Lemma remove_first_count x y l :
  count_occ Nat.eq_dec (remove_first x l) y
  = if Nat.eq_dec x y then Nat.pred (count_occ Nat.eq_dec l y)
    else count_occ Nat.eq_dec l y.
Proof.
  induction l as [|z l IH]; simpl.
  - now destruct (Nat.eq_dec x y).
  - destruct (z =? x)%nat eqn:E.
    + apply Nat.eqb_eq in E; subst z.
      destruct (Nat.eq_dec x y); reflexivity.
    + apply Nat.eqb_neq in E; simpl; rewrite IH.
      destruct (Nat.eq_dec z y), (Nat.eq_dec x y); congruence.
Qed.

(** * Teardown in closed form *)

Lemma unsubscribe_closed this w :
  closed (heap w this) = true -> unsubscribe this w = Ret tt w.
Proof. intros E; unfold unsubscribe, bind, get; now rewrite E. Qed.

Lemma _unsubscribe_run this s w :
  scheduler (heap w this) = Some s ->
  _unsubscribe this w = Ret tt (torn_down_world this s w).
Proof.
  intros Hs.
  unfold _unsubscribe. unfold bind at 1, get at 1. rewrite Hs.
  unfold torn_down_world, torn, recycleAsyncId.
  rewrite <- (dequeue_remove_first (actions w s) this).
  unfold bind, get, assign, ret; cbn beta iota zeta.
  destruct (negb (indexOf (actions w s) this =? -1)%Z);
    destruct (is_nullish (id (heap w this))) eqn:Hn;
    cbn; f_equal; store_eq.
Qed.

Lemma unsubscribe_open this s w :
  closed (heap w this) = false ->
  scheduler (heap w this) = Some s ->
  unsubscribe this w
  = Ret tt (torn_down_world this s (modify this (set_closed true) w)).
Proof.
  intros Hc Hs.
  unfold unsubscribe. unfold bind at 1, get at 1. rewrite Hc.
  unfold bind, assign. apply _unsubscribe_run.
  now rewrite modify_heap_same.
Qed.

(** * Execution in closed form *)

Lemma execute_closed this st dl w :
  closed (heap w this) = true ->
  execute this st dl w = Ret (VError (VStr "executing a cancelled action")) w.
Proof. intros E; unfold execute, bind, get; now rewrite E. Qed.

Lemma _execute_returned this st dl w w1 :
  call_work this st w = Ret tt w1 ->
  _execute this st dl w = Ret VUndefined w1.
Proof.
  intros E; unfold _execute, try_catch, bind; rewrite E; reflexivity.
Qed.

Lemma _execute_threw this st dl w e w1 :
  call_work this st w = Thr e w1 ->
  _execute this st dl w = (unsubscribe this ;; ret (caught e)) w1.
Proof.
  intros E; unfold _execute, try_catch. unfold bind at 1 2; rewrite E.
  reflexivity.
Qed.

Lemma execute_returned this st dl w w1 :
  closed (heap w this) = false ->
  call_work this st (modify this (set_pending false) w) = Ret tt w1 ->
  execute this st dl w = Ret VUndefined (settled this w1).
Proof.
  intros Hc Hw.
  unfold execute. unfold bind at 1, get at 1; rewrite Hc.
  unfold bind at 1, assign at 1. unfold bind at 1.
  rewrite (_execute_returned _ _ dl _ _ Hw); cbn [truthy].
  unfold settled, bind, get.
  destruct (Bool.eqb (pending (heap w1 this)) false
            && negb (is_nullish (id (heap w1 this)))); [|reflexivity].
  rewrite recycleAsyncId_null. unfold assign, ret; f_equal; store_eq.
Qed.

Lemma execute_threw this st dl w e w1 w2 :
  closed (heap w this) = false ->
  call_work this st (modify this (set_pending false) w) = Thr e w1 ->
  unsubscribe this w1 = Ret tt w2 ->
  execute this st dl w = Ret (caught e) w2.
Proof.
  intros Hc Hw Hu.
  unfold execute. unfold bind at 1, get at 1; rewrite Hc.
  unfold bind at 1, assign at 1. unfold bind at 1.
  rewrite (_execute_threw _ _ dl _ _ _ Hw).
  unfold bind at 1; rewrite Hu. unfold ret at 1.
  now rewrite caught_truthy.
Qed.

(** * Well-formed stores are preserved *)

Lemma runtime_ok_spec r :
  runtime_ok r = true <->
  (0 < next_handle r)%Z
  /\ forall t, In t (intervals r) -> (0 < handle t < next_handle r)%Z.
Proof.
  unfold runtime_ok; rewrite andb_true_iff, forallb_forall, Z.ltb_lt.
  split; intros [H1 H2]; split; auto; intros t Ht; specialize (H2 t Ht).
  - apply andb_true_iff in H2; rewrite !Z.ltb_lt in H2; lia.
  - apply andb_true_iff; rewrite !Z.ltb_lt; lia.
Qed.

Lemma has_handle_true v t : has_handle v t = true <-> v = VNum (handle t).
Proof. unfold has_handle; apply value_eqb_eq. Qed.

Lemma live_spec r v :
  live r v = true <-> exists t, In t (intervals r) /\ v = VNum (handle t).
Proof.
  unfold live; rewrite existsb_exists.
  split; intros [t [H1 H2]]; exists t; split; auto; now apply has_handle_true.
Qed.

Lemma NoDup_map_inj {A B : Type} (f : A -> B) l x y :
  NoDup (map f l) -> In x l -> In y l -> f x = f y -> x = y.
Proof.
  induction l as [|z l IH]; simpl; [tauto|].
  intros N Hx Hy E; inversion N as [|? ? Hz Hl]; subst.
  destruct Hx as [->|Hx], Hy as [->|Hy]; auto.
  - exfalso; apply Hz; rewrite E; now apply in_map.
  - exfalso; apply Hz; rewrite <- E; now apply in_map.
Qed.

Lemma NoDup_map_filter {A B : Type} (f : A -> B) p l :
  NoDup (map f l) -> NoDup (map f (filter p l)).
Proof.
  induction l as [|z l IH]; simpl; auto.
  intros N; inversion N as [|? ? Hz Hl]; subst.
  destruct (p z); simpl; auto.
  constructor; auto.
  intros H; apply Hz. apply in_map_iff in H; destruct H as [u [E Hu]].
  apply filter_In in Hu; rewrite <- E; apply in_map; tauto.
Qed.

Lemma nullish_VNum_contra v n : is_nullish v = true -> v = VNum n -> False.
Proof. intros H ->; discriminate. Qed.

(** Writing fields other than [scheduler], [closed] and [id] of an open
    action. *)
Lemma modify_fields_ok this f w :
  world_ok w ->
  closed (heap w this) = false ->
  scheduler (f (heap w this)) = scheduler (heap w this) ->
  closed (f (heap w this)) = closed (heap w this) ->
  id (f (heap w this)) = id (heap w this) ->
  world_ok (modify this f w).
Proof.
  intros [Hcl Hop Hrt Hnd Htm Hid Hq Ho] Hc E1 E2 E3.
  constructor; cbn; auto.
  - intros k; unfold upd; destruct (k =? this)%nat eqn:E; auto.
    rewrite E2, Hc; discriminate.
  - intros k; unfold upd; destruct (k =? this)%nat eqn:E; auto.
    rewrite E1; intros _; now apply Hop.
  - intros t Ht; unfold upd; destruct (flush_action t =? this)%nat eqn:E; auto.
    apply Nat.eqb_eq in E; rewrite E3, <- E; auto.
  - intros k; unfold upd; destruct (k =? this)%nat eqn:E; auto.
    apply Nat.eqb_eq in E; subst k; rewrite E3; auto.
  - intros s k Hk; unfold upd; destruct (k =? this)%nat eqn:E; auto.
    apply Nat.eqb_eq in E; subst k; rewrite E1, E2; auto.
Qed.

(** Cancelling the timer an open action holds. *)
Lemma disarmed_ok this w :
  world_ok w ->
  closed (heap w this) = false ->
  is_nullish (id (heap w this)) = false ->
  world_ok (disarmed this w).
Proof.
  intros [Hcl Hop Hrt Hnd Htm Hid Hq Ho] Hc Hn.
  constructor; cbn; auto.
  - intros k; unfold upd; destruct (k =? this)%nat eqn:E; auto.
    cbn; rewrite Hc; discriminate.
  - intros k; unfold upd; destruct (k =? this)%nat eqn:E; auto.
    cbn; intros _; now apply Hop.
  - apply runtime_ok_spec in Hrt; destruct Hrt as [H0 Hrt].
    apply runtime_ok_spec; cbn; split; auto.
    intros t Ht; apply filter_In in Ht; apply Hrt; tauto.
  - now apply NoDup_map_filter.
  - intros t Ht; apply filter_In in Ht; destruct Ht as [Ht Hh].
    unfold upd; destruct (flush_action t =? this)%nat eqn:E; auto.
    apply Nat.eqb_eq in E. exfalso.
    specialize (Htm t Ht); rewrite E in Htm.
    apply negb_true_iff in Hh.
    assert (has_handle (id (heap w this)) t = true) by now apply has_handle_true.
    congruence.
  - intros k; unfold upd; destruct (k =? this)%nat eqn:E; [discriminate|].
    apply Nat.eqb_neq in E. intros Hk.
    destruct (Hid k Hk) as [t' [Ht' [Hb Hi]]].
    exists t'; split; auto.
    apply filter_In; split; auto. apply negb_true_iff.
    destruct (has_handle (id (heap w this)) t') eqn:Hh; auto.
    apply has_handle_true in Hh.
    destruct (Hid this Hn) as [t [Ht [Hb' Hi']]].
    assert (t = t').
    { apply (NoDup_map_inj handle (intervals (root w))); auto. congruence. }
    subst t'; congruence.
  - intros s k Hk; unfold upd; destruct (k =? this)%nat eqn:E; auto.
    apply Nat.eqb_eq in E; subst k; cbn; auto.
Qed.

(** Requesting a timer for an open action that holds none. *)
Lemma armed_ok this s d w :
  world_ok w ->
  closed (heap w this) = false ->
  is_nullish (id (heap w this)) = true ->
  world_ok (armed this s d w).
Proof.
  intros [Hcl Hop Hrt Hnd Htm Hid Hq Ho] Hc Hn.
  apply runtime_ok_spec in Hrt; destruct Hrt as [H0 Hrt].
  constructor; cbn; auto.
  - intros k; unfold upd; destruct (k =? this)%nat eqn:E; auto.
    cbn; rewrite Hc; discriminate.
  - intros k; unfold upd; destruct (k =? this)%nat eqn:E; auto.
    cbn; intros _; now apply Hop.
  - apply runtime_ok_spec; cbn; split; [lia|].
    intros t [<-|Ht]; cbn; [lia|]. specialize (Hrt t Ht); lia.
  - constructor; auto.
    intros H; apply in_map_iff in H; destruct H as [t [E Ht]].
    specialize (Hrt t Ht); lia.
  - intros t [<-|Ht]; cbn.
    + now rewrite upd_same.
    + unfold upd; destruct (flush_action t =? this)%nat eqn:E; auto.
      apply Nat.eqb_eq in E. exfalso.
      specialize (Htm t Ht); rewrite E in Htm.
      eapply nullish_VNum_contra; eauto.
  - intros k; unfold upd; destruct (k =? this)%nat eqn:E.
    + apply Nat.eqb_eq in E; subst k; intros _.
      eexists; split; [left; reflexivity|]; cbn; auto.
    + intros Hk; destruct (Hid k Hk) as [t' [Ht' [Hb Hi]]].
      exists t'; auto.
  - intros s' k Hk; unfold upd; destruct (k =? this)%nat eqn:E; auto.
    apply Nat.eqb_eq in E; subst k; cbn; auto.
Qed.

(** Closing an open action that holds no timer. *)
Lemma closed_off_ok this s w :
  world_ok w ->
  closed (heap w this) = false ->
  scheduler (heap w this) = Some s ->
  is_nullish (id (heap w this)) = true ->
  world_ok (closed_off this s w).
Proof.
  intros [Hcl Hop Hrt Hnd Htm Hid Hq Ho] Hc Hs Hn.
  constructor; cbn; auto.
  - intros k; unfold upd; destruct (k =? this)%nat eqn:E; auto.
    intros _; repeat split; auto.
  - intros k; unfold upd; destruct (k =? this)%nat eqn:E; auto.
    cbn; discriminate.
  - intros t Ht; unfold upd; destruct (flush_action t =? this)%nat eqn:E; auto.
    apply Nat.eqb_eq in E; cbn. rewrite <- E; auto.
  - intros k; unfold upd; destruct (k =? this)%nat eqn:E; auto.
    apply Nat.eqb_eq in E; subst k; cbn; congruence.
  - intros s' k; unfold upd.
    destruct (s' =? s)%nat eqn:E'.
    + apply Nat.eqb_eq in E'; subst s'. intros Hk.
      destruct (k =? this)%nat eqn:E.
      * apply Nat.eqb_eq in E; subst k. exfalso.
        now apply (remove_first_gone this _ (Ho s)).
      * apply Hq. eapply remove_first_In; eauto.
    + apply Nat.eqb_neq in E'. intros Hk.
      destruct (k =? this)%nat eqn:E; auto.
      apply Nat.eqb_eq in E; subst k. exfalso.
      destruct (Hq s' this Hk) as [_ Hs']. congruence.
  - intros s'; unfold upd; destruct (s' =? s)%nat eqn:E'; auto.
    now apply remove_first_NoDup.
Qed.

Lemma ok_id_truthy w k :
  world_ok w -> is_nullish (id (heap w k)) = false -> truthy (id (heap w k)) = true.
Proof.
  intros H Hn. destruct (ok_id _ H k Hn) as [t [Ht [_ E]]].
  pose proof (ok_runtime _ H) as Hr. apply runtime_ok_spec in Hr.
  destruct Hr as [_ Hr]. specialize (Hr t Ht).
  rewrite E; cbn. apply negb_true_iff, Z.eqb_neq; lia.
Qed.

Lemma ok_id_live w k :
  world_ok w -> is_nullish (id (heap w k)) = false ->
  live (root w) (id (heap w k)) = true.
Proof.
  intros H Hn. destruct (ok_id _ H k Hn) as [t [Ht [_ E]]].
  apply live_spec; eauto.
Qed.

(** On a well-formed store [schedule] returns, and leaves a well-formed
    store. *)
Lemma schedule_ok this st dl w :
  world_ok w ->
  exists w', schedule this st dl w = Ret this w' /\ world_ok w'.
Proof.
  intros H.
  destruct (closed (heap w this)) eqn:Hc.
  - exists w; split; auto. now apply schedule_closed.
  - destruct (scheduler (heap w this)) as [s|] eqn:Hs;
      [|now elim (ok_open _ H this Hc)].
    rewrite (schedule_open _ st dl _ _ Hc Hs). eexists; split; [reflexivity|].
    cbn zeta.
    set (d := default_arg dl (VNum 0)).
    assert (H1 : world_ok (modify this (noted st d) w))
      by (apply modify_fields_ok; auto).
    assert (Hc1 : closed (heap (modify this (noted st d) w) this) = false)
      by (rewrite modify_heap_same; exact Hc).
    assert (Hi1 : id (heap (modify this (noted st d) w) this) = id (heap w this))
      by (rewrite modify_heap_same; reflexivity).
    unfold survives, keeps.
    destruct (is_nullish (id (heap w this))) eqn:Hn; cbn [negb andb orb].
    + rewrite Hi1, (nullish_falsy _ Hn).
      apply armed_ok; auto. now rewrite Hi1.
    + destruct (strict_neq d VNull && strict_eq (delay (heap w this)) d).
      * cbn [orb]. rewrite Hi1, (ok_id_truthy _ _ H Hn); auto.
      * cbn [orb].
        assert (H2 : world_ok (disarmed this (modify this (noted st d) w)))
          by (apply disarmed_ok; auto; now rewrite Hi1).
        unfold disarmed at 1. cbn [heap set_root]. rewrite !modify_heap_same.
        cbn [id set_id truthy].
        apply armed_ok; auto; unfold disarmed; cbn [heap set_root];
          rewrite !modify_heap_same; auto.
Qed.

Lemma torn_down_world_steps this s w :
  torn_down_world this s (modify this (set_closed true) w)
  = closed_off this s
      (if is_nullish (id (heap w this)) then w else disarmed this w).
Proof.
  unfold torn_down_world, closed_off, torn.
  destruct (is_nullish (id (heap w this))) eqn:Hn;
    rewrite ?modify_heap_same; cbn [id set_closed closed]; rewrite Hn.
  - store_eq.
  - unfold disarmed at 1 2. cbn [heap actions root set_root].
    rewrite !modify_heap_same. store_eq.
Qed.

(** On a well-formed store [unsubscribe] returns, and leaves a well-formed
    store. *)
Lemma unsubscribe_ok this w :
  world_ok w ->
  exists w', unsubscribe this w = Ret tt w' /\ world_ok w'.
Proof.
  intros H.
  destruct (closed (heap w this)) eqn:Hc.
  - exists w; split; auto. now apply unsubscribe_closed.
  - destruct (scheduler (heap w this)) as [s|] eqn:Hs;
      [|now elim (ok_open _ H this Hc)].
    rewrite (unsubscribe_open _ _ _ Hc Hs). eexists; split; [reflexivity|].
    rewrite torn_down_world_steps.
    destruct (is_nullish (id (heap w this))) eqn:Hn.
    + apply closed_off_ok; auto.
    + apply closed_off_ok; auto.
      * apply disarmed_ok; auto.
      * unfold disarmed; cbn [heap set_root]; now rewrite modify_heap_same.
      * unfold disarmed; cbn [heap set_root]; now rewrite modify_heap_same.
      * unfold disarmed; cbn [heap set_root]; now rewrite modify_heap_same.
Qed.

Lemma run_call_ok c w :
  world_ok w -> exists w', run_call c w = Ret tt w' /\ world_ok w'.
Proof.
  intros H; destruct c as [k st dl|k]; cbn.
  - destruct (schedule_ok k st dl _ H) as [w' [E H']].
    exists w'; split; auto. unfold bind; now rewrite E.
  - now apply unsubscribe_ok.
Qed.

Lemma run_calls_ok cs w :
  world_ok w -> exists w', run_calls cs w = Ret tt w' /\ world_ok w'.
Proof.
  revert w; induction cs as [|c cs IH]; intros w H; cbn.
  - exists w; auto.
  - destruct (run_call_ok c _ H) as [w1 [E1 H1]].
    destruct (IH w1 H1) as [w2 [E2 H2]].
    exists w2; split; auto. unfold bind; now rewrite E1.
Qed.

(** The work returns or throws; either way it leaves a well-formed store. *)
Lemma call_work_ok this st w :
  world_ok w -> world_ok (world_of (call_work this st w)).
Proof.
  intros H; unfold call_work. unfold bind at 1, get at 1.
  destruct (work (heap w this)) as [wk|]; [|exact H].
  destruct (wk this st) as [cs fin].
  destruct (run_calls_ok cs _ H) as [w1 [E1 H1]].
  unfold bind; rewrite E1. now destruct fin.
Qed.

Lemma settled_ok this w : world_ok w -> world_ok (settled this w).
Proof.
  intros H; unfold settled.
  destruct (Bool.eqb (pending (heap w this)) false) eqn:Hp; cbn [andb]; auto.
  destruct (is_nullish (id (heap w this))) eqn:Hn; cbn [negb]; auto.
  apply disarmed_ok; auto.
  destruct (closed (heap w this)) eqn:Hc; auto.
  destruct (ok_closed _ H this Hc) as (_ & _ & _ & _ & _ & Hi). congruence.
Qed.

(** On a well-formed store [execute] returns, and leaves a well-formed
    store. *)
Lemma execute_ok this st dl w :
  world_ok w ->
  exists v w', execute this st dl w = Ret v w' /\ world_ok w'.
Proof.
  intros H.
  destruct (closed (heap w this)) eqn:Hc.
  - do 2 eexists; split; [now apply execute_closed | auto].
  - assert (H0 : world_ok (modify this (set_pending false) w))
      by (apply modify_fields_ok; auto).
    pose proof (call_work_ok this st _ H0) as H1.
    destruct (call_work this st (modify this (set_pending false) w))
      as [[] w1|e w1] eqn:Hw; cbn in H1.
    + do 2 eexists; split; [eapply execute_returned; eauto|].
      now apply settled_ok.
    + destruct (unsubscribe_ok this _ H1) as [w2 [E2 H2]].
      do 2 eexists; split; [eapply execute_threw; eauto | auto].
Qed.

Lemma run_api_ok c w :
  world_ok w -> exists w', run_api c w = Ret tt w' /\ world_ok w'.
Proof.
  intros H; destruct c as [k st dl|k st dl|k]; cbn.
  - destruct (schedule_ok k st dl _ H) as [w' [E H']].
    exists w'; split; auto. unfold bind; now rewrite E.
  - destruct (execute_ok k st dl _ H) as [v [w' [E H']]].
    exists w'; split; auto. unfold bind; now rewrite E.
  - now apply unsubscribe_ok.
Qed.

Lemma after_apis_ok cs w : world_ok w -> world_ok (after_apis cs w).
Proof.
  revert w; induction cs as [|c cs IH]; intros w H; cbn; auto.
  destruct (run_api_ok c _ H) as [w' [E H']]. rewrite E; cbn; auto.
Qed.

Lemma new_world_ok s wk l : NoDup l -> world_ok (new_world s wk l).
Proof.
  intros N; constructor; cbn.
  - discriminate.
  - discriminate.
  - reflexivity.
  - constructor.
  - tauto.
  - discriminate.
  - intros s' k; unfold upd; destruct (s' =? s)%nat eqn:E; cbn; [|tauto].
    apply Nat.eqb_eq in E; subst; auto.
  - intros s'; unfold upd; destruct (s' =? s)%nat; auto; constructor.
Qed.

(** * Cancellation is permanent *)

Section KeepsClosed.

Context {A B : Type}.

Lemma keeps_closed_ret (a : A) : keeps_closed (ret a).
Proof. intros w k H; exact H. Qed.

Lemma keeps_closed_throw (e : value) : keeps_closed (@throw A e).
Proof. intros w k H; exact H. Qed.

Lemma keeps_closed_bind (m : M A) (f : A -> M B) :
  keeps_closed m -> (forall a, keeps_closed (f a)) -> keeps_closed (bind m f).
Proof.
  intros Hm Hf w k H; unfold bind.
  specialize (Hm w k H). destruct (m w) as [a w'|e w']; cbn in *; auto.
  now apply Hf.
Qed.

Lemma keeps_closed_try_catch (m : M A) (h : value -> M A) :
  keeps_closed m -> (forall e, keeps_closed (h e)) -> keeps_closed (try_catch m h).
Proof.
  intros Hm Hh w k H; unfold try_catch.
  specialize (Hm w k H). destruct (m w) as [a w'|e w']; cbn in *; auto.
  now apply Hh.
Qed.

Lemma keeps_closed_if (b : bool) (m1 m2 : M A) :
  keeps_closed m1 -> keeps_closed m2 -> keeps_closed (if b then m1 else m2).
Proof. now destruct b. Qed.

End KeepsClosed.

Lemma keeps_closed_get this : keeps_closed (get this).
Proof. intros w k H; exact H. Qed.

Lemma keeps_closed_assign this f :
  (forall a, closed a = true -> closed (f a) = true) ->
  keeps_closed (assign this f).
Proof.
  intros Hf w k H; cbn; unfold upd.
  destruct (k =? this)%nat eqn:E; auto.
  apply Nat.eqb_eq in E; subst; auto.
Qed.

Lemma keeps_closed_root {A : Type} (g : World -> A) (r : World -> Runtime) :
  keeps_closed (fun w => Ret (g w) (set_root (r w) w)).
Proof. intros w k H; exact H. Qed.

Lemma keeps_closed_actions (s : nat) (l : World -> list nat) :
  keeps_closed (fun w => Ret tt (set_actions s (l w) w)).
Proof. intros w k H; exact H. Qed.

Ltac keeps_closed_step :=
  first
    [ apply keeps_closed_bind; [|intros ?]
    | apply keeps_closed_ret
    | apply keeps_closed_throw
    | apply keeps_closed_get
    | apply keeps_closed_assign; intros ? ?; cbn; auto
    | apply keeps_closed_if
    | apply keeps_closed_try_catch; [|intros ?] ].

Lemma keeps_closed_recycleAsyncId this sched i dl :
  keeps_closed (recycleAsyncId this sched i dl).
Proof.
  unfold recycleAsyncId; repeat keeps_closed_step.
  intros w k H; exact H.
Qed.

Lemma keeps_closed_requestAsyncId this sched i dl :
  keeps_closed (requestAsyncId this sched i dl).
Proof.
  unfold requestAsyncId; destruct sched; [|apply keeps_closed_throw].
  intros w k H; exact H.
Qed.

Lemma keeps_closed_schedule this st dl : keeps_closed (schedule this st dl).
Proof.
  unfold schedule;
    repeat first [ apply keeps_closed_recycleAsyncId
                 | apply keeps_closed_requestAsyncId
                 | keeps_closed_step ].
Qed.

Lemma keeps_closed__unsubscribe this : keeps_closed (_unsubscribe this).
Proof.
  unfold _unsubscribe. apply keeps_closed_bind; [apply keeps_closed_get|].
  intros a. destruct (scheduler a) as [s|]; [|apply keeps_closed_throw].
  intros w.
  generalize (indexOf (actions w s) this); intros index; revert w.
  change (keeps_closed
    (assign this (set_work None) ;;
     assign this (set_delay VNull) ;;
     assign this (set_state VNull) ;;
     assign this (set_pending false) ;;
     assign this (set_scheduler None) ;;
     (if negb (index =? -1)%Z
      then fun w' => Ret tt (set_actions s (splice1 (actions w' s) index) w')
      else ret tt) ;;
     (if negb (is_nullish (id a))
      then r <- recycleAsyncId this (Some s) (id a) VNull ;; assign this (set_id r)
      else ret tt))).
  repeat first [ apply keeps_closed_recycleAsyncId
               | apply (keeps_closed_actions s)
               | keeps_closed_step ].
Qed.

Lemma keeps_closed_unsubscribe this : keeps_closed (unsubscribe this).
Proof.
  unfold unsubscribe;
    repeat first [ apply keeps_closed__unsubscribe | keeps_closed_step ].
Qed.

Lemma keeps_closed_run_calls cs : keeps_closed (run_calls cs).
Proof.
  induction cs as [|c cs IH]; cbn; [apply keeps_closed_ret|].
  apply keeps_closed_bind; [|intros _; exact IH].
  destruct c; cbn;
    repeat first [ apply keeps_closed_schedule | apply keeps_closed_unsubscribe
                 | keeps_closed_step ].
Qed.

Lemma keeps_closed_call_work this st : keeps_closed (call_work this st).
Proof.
  unfold call_work. apply keeps_closed_bind; [apply keeps_closed_get|].
  intros a; destruct (work a) as [wk|]; [|apply keeps_closed_throw].
  destruct (wk this st) as [cs fin].
  apply keeps_closed_bind; [apply keeps_closed_run_calls|].
  intros _; destruct fin; keeps_closed_step.
Qed.

Lemma keeps_closed_execute this st dl : keeps_closed (execute this st dl).
Proof.
  unfold execute, _execute;
    repeat first [ apply keeps_closed_call_work | apply keeps_closed_unsubscribe
                 | apply keeps_closed_recycleAsyncId
                 | match goal with
                   | |- keeps_closed (let (_, _) := ?r in _) => destruct r
                   end
                 | keeps_closed_step ].
Qed.

Lemma keeps_closed_run_api c : keeps_closed (run_api c).
Proof.
  destruct c; cbn;
    repeat first [ apply keeps_closed_schedule | apply keeps_closed_execute
                 | apply keeps_closed_unsubscribe | keeps_closed_step ].
Qed.

Lemma after_apis_closed cs w k :
  closed (heap w k) = true -> closed (heap (after_apis cs w) k) = true.
Proof.
  revert w; induction cs as [|c cs IH]; intros w H; cbn; auto.
  apply IH. now apply keeps_closed_run_api.
Qed.

(** Whatever becomes of the timer, [schedule] on an open action records the
    new state and sets [pending], even when the request for a timer throws. *)
Lemma schedule_writes this st dl w :
  closed (heap w this) = false ->
  let w' := world_of (schedule this st dl w) in
  state (heap w' this) = st /\ pending (heap w' this) = true
  /\ closed (heap w' this) = false
  /\ work (heap w' this) = work (heap w this)
  /\ scheduler (heap w' this) = scheduler (heap w this).
Proof.
  intros Hc.
  destruct (scheduler (heap w this)) as [s|] eqn:Hs.
  - rewrite (schedule_open _ st dl _ _ Hc Hs). cbn zeta.
    set (d := default_arg dl (VNum 0)).
    destruct (survives (heap w this) d || is_nullish (id (heap w this)));
      fields.
    + destruct (truthy (id (heap w this))); cbn [world_of]; fields; auto.
    + cbn [truthy world_of]; fields; auto.
  - unfold schedule, recycleAsyncId, requestAsyncId.
    unfold bind, get, assign, ret, throw; cbn beta iota zeta.
    rewrite Hc, Hs.
    destruct (is_nullish (id (heap w this))) eqn:Hn; cbn [negb]; fields.
    + rewrite (nullish_falsy _ Hn). cbn [world_of]. fields. auto.
    + destruct (strict_neq (default_arg (default_arg dl (VNum 0)) (VNum 0)) VNull &&
                strict_eq (delay (heap w this))
                          (default_arg (default_arg dl (VNum 0)) (VNum 0))); fields.
      * destruct (truthy (id (heap w this))); cbn [world_of]; fields; auto.
      * unfold clearInterval, modify, set_action, set_root, upd; cbn;
          repeat (rewrite Nat.eqb_refl; cbn); auto.
Qed.

Lemma unsubscribe_closes this w :
  closed (heap (world_of (unsubscribe this w)) this) = true.
Proof.
  destruct (closed (heap w this)) eqn:Hc.
  - now rewrite (unsubscribe_closed _ _ Hc).
  - unfold unsubscribe. unfold bind at 1, get at 1. rewrite Hc.
    unfold bind at 1, assign at 1.
    apply keeps_closed__unsubscribe. now rewrite modify_heap_same.
Qed.

Lemma unsubscribe_twice this w w1 :
  unsubscribe this w = Ret tt w1 -> unsubscribe this w1 = Ret tt w1.
Proof.
  intros E. apply unsubscribe_closed.
  pose proof (unsubscribe_closes this w) as H. now rewrite E in H.
Qed.

Lemma unsubscribe_times_once n this w :
  unsubscribe_times (S n) this w = unsubscribe this w.
Proof.
  revert w; induction n as [|n IH]; intros w.
  - change (unsubscribe_times 1 this) with (unsubscribe this ;; ret tt).
    unfold bind. destruct (unsubscribe this w) as [[] w1|e w1]; reflexivity.
  - change (unsubscribe_times (S (S n)) this)
      with (unsubscribe this ;; unsubscribe_times (S n) this).
    unfold bind. destruct (unsubscribe this w) as [[] w1|e w1] eqn:E; auto.
    rewrite IH. now apply unsubscribe_twice with (w := w).
Qed.

(** * Timers *)

Lemma live_handle r v :
  runtime_ok r = true -> live r v = true ->
  exists h, v = VNum h /\ (0 < h < next_handle r)%Z.
Proof.
  intros Hr Hl. apply runtime_ok_spec in Hr. apply live_spec in Hl.
  destruct Hl as [t [Ht E]]. exists (handle t); split; auto. now apply Hr.
Qed.

Lemma live_after_clear r v : live (snd (clearInterval r v)) v = false.
Proof.
  unfold live; cbn. apply not_true_is_false; intros H.
  apply existsb_exists in H; destruct H as [t [Ht E]].
  apply filter_In in Ht; destruct Ht as [_ Ht]. now rewrite E in Ht.
Qed.

Lemma live_after_set r s k d :
  live (snd (setInterval r s k d)) (VNum (next_handle r)) = true.
Proof. unfold live, has_handle; cbn. now rewrite Z.eqb_refl. Qed.

Lemma live_set_other r s k d v :
  v <> VNum (next_handle r) ->
  live (snd (setInterval r s k d)) v = live r v.
Proof.
  intros N; unfold live; cbn.
  destruct (has_handle v (mkTimer (next_handle r) s k d)) eqn:E; auto.
  apply has_handle_true in E; cbn in E; congruence.
Qed.

Lemma requested_set r s k d :
  requested (snd (setInterval r s k d)) = S (requested r).
Proof.
  unfold requested; cbn. rewrite filter_app, length_app; cbn; lia.
Qed.

Lemma requested_clear r v : requested (snd (clearInterval r v)) = requested r.
Proof.
  unfold requested; cbn. rewrite filter_app, length_app; cbn; lia.
Qed.

Lemma keeps_same a d :
  delay a = d -> d <> VNull -> d <> VNaN -> keeps a d = true.
Proof.
  intros E N1 N2; unfold keeps, strict_neq; rewrite E.
  apply andb_true_iff; split.
  - apply negb_true_iff, not_true_is_false; intros H.
    apply strict_eq_true in H; tauto.
  - apply strict_eq_true; auto.
Qed.

Lemma keeps_other a d : delay a <> d -> keeps a d = false.
Proof.
  intros N; unfold keeps. apply andb_false_iff; right.
  apply not_true_is_false; intros H. apply strict_eq_true in H; tauto.
Qed.

(** * Work that reschedules, work that does not *)

Lemma run_calls_app cs cs' w :
  run_calls (cs ++ cs') w = (run_calls cs ;; run_calls cs') w.
Proof.
  revert w; induction cs as [|c cs IH]; intros w; cbn.
  - reflexivity.
  - unfold bind. destruct (run_call c w) as [[] w1|e w1]; auto.
Qed.

(** After [schedule] on an open action of a well-formed store, the action is
    pending and holds a timer. *)
Lemma schedule_open_holds_timer this st dl w w' :
  world_ok w ->
  closed (heap w this) = false ->
  schedule this st dl w = Ret this w' ->
  pending (heap w' this) = true /\ is_nullish (id (heap w' this)) = false
  /\ closed (heap w' this) = false.
Proof.
  intros H Hc E.
  destruct (schedule_writes this st dl w Hc) as (_ & Hp & Hc' & _).
  rewrite E in Hp, Hc'; cbn in Hp, Hc'. repeat split; auto.
  destruct (scheduler (heap w this)) as [s|] eqn:Hs;
    [|now elim (ok_open _ H this Hc)].
  rewrite (schedule_open _ st dl _ _ Hc Hs) in E. injection E as <-.
  cbn zeta. unfold survives.
  destruct (is_nullish (id (heap w this))) eqn:Hn; cbn [negb andb orb]; fields.
  - rewrite (nullish_falsy _ Hn). fields. reflexivity.
  - destruct (keeps (heap w this) (default_arg dl (VNum 0))); cbn [orb]; fields.
    + rewrite (ok_id_truthy _ _ H Hn). fields. exact Hn.
    + cbn [truthy]. fields. reflexivity.
Qed.

(** [schedule] on an open action that holds no timer requests one. *)
Lemma schedule_arms this s st dl w :
  closed (heap w this) = false ->
  scheduler (heap w this) = Some s ->
  is_nullish (id (heap w this)) = true ->
  schedule this st dl w
  = Ret this (armed this s (default_arg dl (VNum 0))
                    (modify this (noted st (default_arg dl (VNum 0))) w)).
Proof.
  intros Hc Hs Hn. rewrite (schedule_open _ st dl _ _ Hc Hs). cbn zeta.
  rewrite Hn, orb_true_r. fields. now rewrite (nullish_falsy _ Hn).
Qed.

Lemma schedule_frame this k st dl w w' :
  world_ok w -> k <> this ->
  schedule k st dl w = Ret k w' -> heap w' this = heap w this.
Proof.
  intros H N E.
  destruct (closed (heap w k)) eqn:Hc.
  - rewrite (schedule_closed _ st dl _ Hc) in E. now injection E as <-.
  - destruct (scheduler (heap w k)) as [s|] eqn:Hs;
      [|now elim (ok_open _ H k Hc)].
    rewrite (schedule_open _ st dl _ _ Hc Hs) in E. injection E as <-.
    cbn zeta.
    repeat match goal with
           | |- context [if ?b then _ else _] => destruct b
           end;
      rewrite ?armed_heap_other, ?disarmed_heap_other, ?modify_heap_other; auto.
Qed.

Lemma unsubscribe_frame this k w w' :
  world_ok w -> k <> this ->
  unsubscribe k w = Ret tt w' -> heap w' this = heap w this.
Proof.
  intros H N E.
  destruct (closed (heap w k)) eqn:Hc.
  - rewrite (unsubscribe_closed _ _ Hc) in E. now injection E as <-.
  - destruct (scheduler (heap w k)) as [s|] eqn:Hs;
      [|now elim (ok_open _ H k Hc)].
    rewrite (unsubscribe_open _ _ _ Hc Hs) in E. injection E as <-.
    unfold torn_down_world; cbn [heap].
    rewrite upd_other by auto. now apply modify_heap_other.
Qed.

(** Calls on other actions leave the fields of [this] alone. *)
Lemma run_calls_frame this cs w w1 :
  world_ok w ->
  Forall (fun c => call_target c <> this) cs ->
  run_calls cs w = Ret tt w1 ->
  heap w1 this = heap w this.
Proof.
  intros H F; revert w H; induction F as [|c cs N F IH]; intros w H E; cbn in E.
  - now injection E as <-.
  - unfold bind in E.
    destruct (run_call_ok c w H) as [w' [E' H']]. rewrite E' in E.
    rewrite (IH w' H' E).
    destruct c as [k st dl|k]; cbn in N, E'.
    + unfold bind in E'.
      destruct (schedule k st dl w) as [k' w''|e w''] eqn:Es; [|discriminate].
      injection E' as ->.
      destruct (schedule_ok k st dl w H) as [w2 [E2 _]].
      rewrite E2 in Es. injection Es as <- <-.
      eapply schedule_frame; eauto.
    + eapply unsubscribe_frame; eauto.
Qed.

Lemma call_work_run this st wk cs fin w :
  work (heap w this) = Some wk ->
  wk this st = (cs, fin) ->
  call_work this st w
  = (run_calls cs ;; match fin with Normal => ret tt | Throw e => throw e end) w.
Proof.
  intros Hw Hk. unfold call_work. unfold bind at 1, get at 1.
  now rewrite Hw, Hk.
Qed.

Lemma settled_pending this w :
  pending (heap w this) = true -> settled this w = w.
Proof. intros E; unfold settled; now rewrite E. Qed.

Lemma settled_no_timer this w :
  is_nullish (id (heap w this)) = true -> settled this w = w.
Proof. intros E; unfold settled; rewrite E; now rewrite andb_false_r. Qed.

Lemma settled_disarms this w :
  pending (heap w this) = false ->
  is_nullish (id (heap w this)) = false ->
  settled this w = disarmed this w.
Proof. intros E1 E2; unfold settled; now rewrite E1, E2. Qed.

Lemma timers_of_none this w :
  world_ok w -> is_nullish (id (heap w this)) = true ->
  timers_of this (root w) = [].
Proof.
  intros H Hn. unfold timers_of.
  destruct (filter _ _) as [|t l] eqn:E; auto.
  assert (Ht : In t (filter (fun t => (flush_action t =? this)%nat)
                            (intervals (root w)))) by (rewrite E; now left).
  apply filter_In in Ht; destruct Ht as [Ht Hb].
  apply Nat.eqb_eq in Hb. pose proof (ok_timer _ H t Ht) as Hi.
  rewrite Hb in Hi. exfalso; eapply nullish_VNum_contra; eauto.
Qed.

Lemma live_nullish r v : is_nullish v = true -> live r v = false.
Proof.
  intros Hn. apply not_true_is_false; intros H.
  apply live_spec in H; destruct H as [t [_ E]].
  eapply nullish_VNum_contra; eauto.
Qed.

(** * Three runs *)

(** Scheduled twice with the same delay, then fired: one timer is requested,
    the work gets the second state, and the timer is cancelled after the
    work returned without rescheduling. *)
Example run_schedule_twice_then_fire :
  let w0 := new_world 0 idle [0] in
  let w1 := world_of (schedule 0 (VNum 1) (VNum 100) w0) in
  let w2 := world_of (schedule 0 (VNum 2) (VNum 100) w1) in
  let w3 := world_of (fire 0 w2) in
  id (heap w1 0) = VNum 1
  /\ id (heap w2 0) = VNum 1 /\ state (heap w2 0) = VNum 2
  /\ requested (root w2) = 1
  /\ fire 0 w2 = Ret VUndefined w3
  /\ id (heap w3 0) = VUndefined /\ pending (heap w3 0) = false
  /\ closed (heap w3 0) = false
  /\ intervals (root w3) = []
  /\ log (root w3) = [SetInterval (mkTimer 1 0 0 (VNum 100)); ClearInterval (VNum 1)].
Proof. vm_compute. repeat split. Qed.

(** A counter that reschedules itself with the same delay on each fire: the
    timer is never replaced and the state goes up by one per fire. *)
Example run_counter :
  let w0 := new_world 0 counter [0] in
  let w1 := world_of (schedule 0 (VNum 0) (VNum 50) w0) in
  let w2 := world_of (fire 0 w1) in
  let w3 := world_of (fire 0 w2) in
  let w4 := world_of (fire 0 w3) in
  map (fun w => (id (heap w 0), state (heap w 0), pending (heap w 0)))
      [w1; w2; w3; w4]
  = [(VNum 1, VNum 0, true); (VNum 1, VNum 1, true);
     (VNum 1, VNum 2, true); (VNum 1, VNum 3, true)]
  /\ log (root w4) = [SetInterval (mkTimer 1 0 0 (VNum 50))].
Proof. vm_compute. split; reflexivity. Qed.

(** Work that throws the falsy value [0]: [execute] returns [new Error(0)],
    the action is torn down and taken out of the array, and a later
    [schedule] does nothing. *)
Example run_failing_work :
  let w0 := new_world 0 failing [3; 0; 5] in
  let w1 := world_of (schedule 0 (VNum 1) (VNum 50) w0) in
  let w2 := world_of (fire 0 w1) in
  fire 0 w1 = Ret (VError (VNum 0)) w2
  /\ closed (heap w2 0) = true
  /\ (work (heap w2 0), state (heap w2 0), delay (heap w2 0)) = (None, VNull, VNull)
  /\ scheduler (heap w2 0) = None
  /\ id (heap w2 0) = VUndefined
  /\ actions w2 0 = [3; 5]
  /\ intervals (root w2) = []
  /\ schedule 0 (VNum 7) (VNum 50) w2 = Ret 0 w2.
Proof. vm_compute. repeat split. Qed.

(** * The claims *)

(** C1, as the code has it - Timer reuse law: an open action that was
    scheduled with a delay D other than [null] (and other than [NaN], which
    is not [===] to itself) and holds a live timer keeps that timer, with no
    call to the runtime, when [schedule(state, D)] is called again; called
    with a delay other than D, [schedule] cancels the timer and records a
    freshly requested one, whose handle differs from the old one. *)
Theorem schedule_timer_reuse this s st D w :
  closed (heap w this) = false ->
  scheduler (heap w this) = Some s ->
  delay (heap w this) = D ->
  runtime_ok (root w) = true ->
  live (root w) (id (heap w this)) = true ->
  D <> VNull -> D <> VUndefined -> D <> VNaN ->
  (recycleAsyncId this (Some s) (id (heap w this)) D w
   = Ret (id (heap w this)) w
   /\ exists w', schedule this st D w = Ret this w'
                 /\ id (heap w' this) = id (heap w this)
                 /\ root w' = root w)
  /\ (forall st' D', default_arg D' (VNum 0) <> D ->
        exists w', schedule this st' D' w = Ret this w'
                   /\ id (heap w' this) = VNum (next_handle (root w))
                   /\ id (heap w' this) <> id (heap w this)
                   /\ log (root w')
                      = log (root w)
                        ++ [ClearInterval (id (heap w this));
                            SetInterval (mkTimer (next_handle (root w)) s this
                                                 (default_arg D' (VNum 0)))]
                   /\ live (root w') (id (heap w this)) = false
                   /\ live (root w') (id (heap w' this)) = true).
Proof.
  intros Hc Hs Hd Hr Hl N1 N2 N3.
  destruct (live_handle _ _ Hr Hl) as [h [Eh Hh]].
  assert (Hn : is_nullish (id (heap w this)) = false) by now rewrite Eh.
  assert (Ht : truthy (id (heap w this)) = true).
  { rewrite Eh; cbn. apply negb_true_iff, Z.eqb_neq; lia. }
  assert (Ed : default_arg D (VNum 0) = D) by (destruct D; auto; congruence).
  split.
  - split.
    { apply recycleAsyncId_keep. rewrite Ed.
      exact (keeps_same _ _ Hd N1 N3). }
    eexists; split; [apply (schedule_open _ st D _ _ Hc Hs)|].
    cbn zeta.
    rewrite Ed. unfold survives.
    rewrite Hn, (keeps_same _ _ Hd N1 N3); cbn [negb andb orb].
    fields. rewrite Ht. fields. auto.
  - intros st' D' N.
    eexists; split; [apply (schedule_open _ st' D' _ _ Hc Hs)|].
    cbn zeta. set (d := default_arg D' (VNum 0)) in *.
    unfold survives.
    rewrite Hn, keeps_other by congruence; cbn [negb andb orb].
    fields. cbn [truthy]. fields. cbn [next_handle clearInterval snd].
    repeat split.
    + rewrite Eh; intros E; injection E; lia.
    + cbn. now rewrite <- app_assoc.
    + rewrite live_set_other.
      * apply live_after_clear.
      * cbn. rewrite Eh; intros E; injection E; lia.
    + apply (live_after_set (snd (clearInterval (root w) (id (heap w this))))).
Qed.

Lemma schedule_timer_reuse_witness :
  let w := world_of (schedule 0 (VNum 1) (VNum 100) (new_world 0 idle [0])) in
  (exists w', schedule 0 (VNum 2) (VNum 100) w = Ret 0 w'
              /\ id (heap w' 0) = id (heap w 0) /\ root w' = root w)
  /\ (exists w', schedule 0 (VNum 2) (VNum 250) w = Ret 0 w'
                 /\ id (heap w' 0) <> id (heap w 0)).
Proof.
  intros w.
  destruct (schedule_timer_reuse 0 0 (VNum 2) (VNum 100) w) as [[_ H1] H2];
    try reflexivity; try discriminate.
  split; [exact H1|].
  destruct (H2 (VNum 2) (VNum 250)) as [w' (E & _ & N & _)]; [discriminate|].
  exists w'; split; assumption.
Defined.

(** C1, as stated, fails: an action scheduled with the delay [null] holds a
    live timer (handle 1); scheduling it again with the same delay [null]
    cancels that timer and requests another (handle 2). *)
Lemma schedule_null_delay_replaces_timer :
  let w := world_of (schedule 0 (VNum 1) VNull (new_world 0 idle [0])) in
  let w' := world_of (schedule 0 (VNum 2) VNull w) in
  closed (heap w 0) = false
  /\ delay (heap w 0) = VNull
  /\ id (heap w 0) = VNum 1
  /\ live (root w) (id (heap w 0)) = true
  /\ schedule 0 (VNum 2) VNull w = Ret 0 w'
  /\ id (heap w' 0) = VNum 2
  /\ id (heap w' 0) <> id (heap w 0)
  /\ log (root w')
     = [SetInterval (mkTimer 1 0 0 VNull); ClearInterval (VNum 1);
        SetInterval (mkTimer 2 0 0 VNull)].
Proof.
  vm_compute. repeat split; try reflexivity. discriminate.
Qed.

(** C2 - Self-reschedule survives [execute]'s cleanup: when the work of an
    open action has set [pending] back to true by the time it returns,
    [execute] returns the store as the work left it: the post-execution check
    cancels nothing.  This is so when the work ends with a call of [schedule]
    on its own action, which then, unless the work closed it first, is pending
    and holds a live timer.  When instead [pending] is still false and the
    action holds a timer, as when the work returns without any call, the
    post-execution check cancels that timer and clears [id]. *)
Theorem execute_self_reschedule this st dl wk w :
  world_ok w ->
  closed (heap w this) = false ->
  work (heap w this) = Some wk ->
  let w0 := modify this (set_pending false) w in
  (forall w1, call_work this st w0 = Ret tt w1 ->
      (pending (heap w1 this) = true ->
       execute this st dl w = Ret VUndefined w1)
      /\ (pending (heap w1 this) = false ->
          is_nullish (id (heap w1 this)) = false ->
          execute this st dl w = Ret VUndefined (disarmed this w1)
          /\ live (root (disarmed this w1)) (id (heap w1 this)) = false))
  /\ (forall cs st' dl',
      wk this st = (cs ++ [CallSchedule this st' dl'], Normal) ->
      exists w1, call_work this st w0 = Ret tt w1
                 /\ execute this st dl w = Ret VUndefined w1
                 /\ (closed (heap w1 this) = false ->
                     pending (heap w1 this) = true
                     /\ live (root w1) (id (heap w1 this)) = true))
  /\ (wk this st = ([], Normal) ->
      is_nullish (id (heap w this)) = false ->
      call_work this st w0 = Ret tt w0
      /\ execute this st dl w = Ret VUndefined (disarmed this w0)
      /\ id (heap (disarmed this w0) this) = VUndefined
      /\ live (root (disarmed this w0)) (id (heap w this)) = false
      /\ log (root (disarmed this w0))
         = log (root w) ++ [ClearInterval (id (heap w this))]).
Proof.
  intros H Hc Hw w0.
  assert (H0 : world_ok w0) by (apply modify_fields_ok; auto).
  assert (Hw0 : work (heap w0 this) = Some wk)
    by (unfold w0; now rewrite modify_heap_same).
  split; [|split].
  - intros w1 Ew.
    rewrite (execute_returned _ _ dl _ _ Hc Ew). split.
    + intros Hp. now rewrite settled_pending.
    + intros Hp Hn. rewrite settled_disarms by assumption.
      split; [reflexivity|]. fields. apply live_after_clear.
  - intros cs st' dl' Hk.
    destruct (run_calls_ok cs w0 H0) as [w' [E' H']].
    destruct (schedule_ok this st' dl' w' H') as [w1 [E1 H1]].
    assert (Ew : call_work this st w0 = Ret tt w1).
    { rewrite (call_work_run _ _ _ _ _ _ Hw0 Hk).
      unfold bind at 1. rewrite run_calls_app. unfold bind at 1. rewrite E'.
      cbn. unfold bind. now rewrite E1. }
    exists w1; split; [exact Ew|].
    rewrite (execute_returned _ _ dl _ _ Hc Ew).
    destruct (closed (heap w' this)) eqn:Hc'.
    + rewrite (schedule_closed _ st' dl' _ Hc') in E1. injection E1 as <-.
      destruct (ok_closed _ H' this Hc') as (_ & _ & _ & _ & _ & Hi).
      rewrite settled_no_timer by exact Hi.
      split; [reflexivity | congruence].
    + destruct (schedule_open_holds_timer _ _ _ _ _ H' Hc' E1) as (Hp & Hi & _).
      rewrite settled_pending by exact Hp.
      split; [reflexivity|]. intros _; split; [exact Hp|].
      now apply ok_id_live.
  - intros Hk Hn.
    assert (Ew : call_work this st w0 = Ret tt w0)
      by (rewrite (call_work_run _ _ _ _ _ _ Hw0 Hk); reflexivity).
    split; [exact Ew|].
    rewrite (execute_returned _ _ dl _ _ Hc Ew).
    rewrite settled_disarms;
      [|unfold w0; now rewrite modify_heap_same
       |unfold w0; now rewrite modify_heap_same].
    repeat split; unfold w0; fields; auto using live_after_clear.
Qed.

Lemma execute_self_reschedule_witness :
  let w := world_of (schedule 0 (VNum 0) (VNum 50) (new_world 0 counter [0])) in
  exists w1, execute 0 (VNum 0) (VNum 50) w = Ret VUndefined w1
             /\ (closed (heap w1 0) = false ->
                 pending (heap w1 0) = true
                 /\ live (root w1) (id (heap w1 0)) = true).
Proof.
  intros w.
  destruct (schedule_ok 0 (VNum 0) (VNum 50) (new_world 0 counter [0]))
    as [w' [E H]].
  { apply new_world_ok. repeat constructor; cbn; tauto. }
  assert (Hw : world_ok w) by (unfold w; rewrite E; exact H).
  destruct (execute_self_reschedule 0 (VNum 0) (VNum 50) counter w Hw)
    as (_ & H2 & _); try reflexivity.
  destruct (H2 [] (VNum 1) (VNum 50)) as [w1 (_ & E1 & H1)]; [reflexivity|].
  exists w1; split; assumption.
Defined.

(** C3 - No execution after cancellation: on an action whose [closed] is
    true, [execute(state, delay)] returns the error
    [new Error('executing a cancelled action')] and does nothing else: the
    store it leaves is the store it found (no field of the action, no array
    and no timer changed), and this whatever callable the action holds, so
    the work is not run. *)
Theorem execute_after_cancellation this st dl w :
  closed (heap w this) = true ->
  execute this st dl w = Ret (VError (VStr "executing a cancelled action")) w
  /\ forall wk,
      execute this st dl (modify this (set_work wk) w)
      = Ret (VError (VStr "executing a cancelled action"))
            (modify this (set_work wk) w).
Proof.
  intros Hc; split.
  - now apply execute_closed.
  - intros wk; apply execute_closed. now rewrite modify_heap_same.
Qed.

Lemma execute_after_cancellation_witness :
  let w := world_of (unsubscribe 0 (new_world 0 counter [0])) in
  closed (heap w 0) = true
  /\ execute 0 (VNum 1) (VNum 50) w
     = Ret (VError (VStr "executing a cancelled action")) w.
Proof.
  intros w; split; [reflexivity|].
  apply (execute_after_cancellation 0 (VNum 1) (VNum 50) w); reflexivity.
Defined.

(** C4 - Failure tears down the action: when the work of an open action
    raises [e], [execute] does not throw: it returns the error value made
    from [e] ([e] itself when it is truthy, [new Error(e)] otherwise), and
    leaves the action torn down: [closed] true, [work], [state], [delay] and
    [scheduler] cleared, [pending] false, no [id], the action in no
    scheduler's array and no timer bound to it registered. *)
Theorem execute_failure_tears_down this st dl e w w1 :
  world_ok w ->
  closed (heap w this) = false ->
  call_work this st (modify this (set_pending false) w) = Thr e w1 ->
  exists w2,
    execute this st dl w = Ret (caught e) w2
    /\ caught e = (if truthy e then e else VError e)
    /\ closed (heap w2 this) = true
    /\ work (heap w2 this) = None
    /\ state (heap w2 this) = VNull
    /\ delay (heap w2 this) = VNull
    /\ pending (heap w2 this) = false
    /\ scheduler (heap w2 this) = None
    /\ is_nullish (id (heap w2 this)) = true
    /\ (forall s, ~ In this (actions w2 s))
    /\ timers_of this (root w2) = []
    /\ live (root w2) (id (heap w1 this)) = false
    /\ world_ok w2.
Proof.
  intros H Hc Ew.
  assert (H0 : world_ok (modify this (set_pending false) w))
    by (apply modify_fields_ok; auto).
  pose proof (call_work_ok this st _ H0) as H1. rewrite Ew in H1; cbn in H1.
  destruct (unsubscribe_ok this w1 H1) as [w2 [E2 H2]].
  assert (Hc2 : closed (heap w2 this) = true).
  { pose proof (unsubscribe_closes this w1) as X. now rewrite E2 in X. }
  destruct (ok_closed _ H2 this Hc2) as (T1 & T2 & T3 & T4 & T5 & T6).
  exists w2. split; [now apply execute_threw with (w1 := w1)|].
  split; [apply caught_cases|].
  repeat (split; [assumption|]).
  split; [|split; [|split; [|exact H2]]].
  - intros s Hin. destruct (ok_queue _ H2 s this Hin) as [X _]. congruence.
  - now apply timers_of_none.
  - destruct (is_nullish (id (heap w1 this))) eqn:Hn; [now apply live_nullish|].
    destruct (closed (heap w1 this)) eqn:Hc1.
    + destruct (ok_closed _ H1 this Hc1) as (_ & _ & _ & _ & _ & X). congruence.
    + destruct (scheduler (heap w1 this)) as [s|] eqn:Hs;
        [|now elim (ok_open _ H1 this Hc1)].
      rewrite (unsubscribe_open _ _ _ Hc1 Hs) in E2. injection E2 as <-.
      unfold torn_down_world; cbn [root]. fields. rewrite Hn.
      apply live_after_clear.
Qed.

Lemma execute_failure_tears_down_witness :
  let w := world_of (schedule 0 (VNum 1) (VNum 50) (new_world 0 failing [3; 0; 5])) in
  exists w2,
    execute 0 (VNum 1) (VNum 50) w = Ret (VError (VNum 0)) w2
    /\ closed (heap w2 0) = true
    /\ (forall s, ~ In 0 (actions w2 s))
    /\ timers_of 0 (root w2) = [].
Proof.
  intros w.
  destruct (schedule_ok 0 (VNum 1) (VNum 50) (new_world 0 failing [3; 0; 5]))
    as [w' [E H]].
  { apply new_world_ok. repeat constructor; cbn; intuition lia. }
  assert (Hw : world_ok w) by (unfold w; rewrite E; exact H).
  destruct (execute_failure_tears_down 0 (VNum 1) (VNum 50) (VNum 0) w
              (modify 0 (set_pending false) w) Hw)
    as [w2 (E2 & _ & Hc & _ & _ & _ & _ & _ & _ & Hq & Ht & _)];
    try reflexivity.
  exists w2; repeat split; assumption.
Defined.

(** C5 - Request-iff law inside [schedule]: on an open action whose [id] is
    absent or a handle (handles are truthy), one call of [schedule] requests
    a timer exactly when no id survives the recycling step, that is when the
    action had no id at entry or [recycleAsyncId] cleared it; it then records
    the new handle.  Otherwise it keeps the recycled id and calls the runtime
    not at all. *)
Theorem schedule_requests_iff this s st dl w :
  closed (heap w this) = false ->
  scheduler (heap w this) = Some s ->
  is_nullish (id (heap w this)) = true \/ truthy (id (heap w this)) = true ->
  let a := heap w this in
  let d := default_arg dl (VNum 0) in
  exists w', schedule this st dl w = Ret this w'
    /\ (is_nullish (id a) = true \/ keeps a d = false ->
          requested (root w') = S (requested (root w))
          /\ id (heap w' this) = VNum (next_handle (root w)))
    /\ (is_nullish (id a) = false /\ keeps a d = true ->
          requested (root w') = requested (root w)
          /\ id (heap w' this) = id a
          /\ root w' = root w).
Proof.
  intros Hc Hs Hi a d; subst a.
  eexists; split; [apply (schedule_open _ st dl _ _ Hc Hs)|].
  cbn zeta. fold d. unfold survives.
  destruct (is_nullish (id (heap w this))) eqn:Hn; cbn [negb andb orb].
  - fields. rewrite (nullish_falsy _ Hn). fields.
    split; [intros _|intros [? _]; discriminate].
    split; [apply requested_set | reflexivity].
  - destruct Hi as [Hi|Hi]; [discriminate|].
    destruct (keeps (heap w this) d) eqn:Hk; cbn [orb].
    + fields. rewrite Hi. fields.
      split; [intros [?|?]; discriminate | auto].
    + fields. cbn [truthy]. fields.
      split; [intros _|intros [_ ?]; discriminate].
      split; [|reflexivity].
      now rewrite requested_set, requested_clear.
Qed.

Lemma schedule_requests_iff_witness :
  let w := world_of (schedule 0 (VNum 1) (VNum 100) (new_world 0 idle [0])) in
  exists w', schedule 0 (VNum 2) (VNum 250) w = Ret 0 w'
             /\ requested (root w') = S (requested (root w)).
Proof.
  intros w.
  destruct (schedule_requests_iff 0 0 (VNum 2) (VNum 250) w)
    as [w' (E & H & _)]; try reflexivity.
  - right; reflexivity.
  - exists w'; split; [exact E|]. apply H. right; reflexivity.
Defined.

(** C6 - Scheduling a cancelled action is a silent no-op: on an action whose
    [closed] is true, [schedule(state, delay)] returns the action itself and
    leaves the store as it found it: [state], [delay], [pending] and [id]
    unchanged, no call to the runtime, nothing thrown. *)
Theorem schedule_after_cancellation this st dl w :
  closed (heap w this) = true ->
  schedule this st dl w = Ret this w.
Proof. apply schedule_closed. Qed.

Lemma schedule_after_cancellation_witness :
  let w := world_of (unsubscribe 0 (new_world 0 counter [0])) in
  schedule 0 (VNum 1) (VNum 50) w = Ret 0 w.
Proof.
  intros w. apply (schedule_after_cancellation 0 (VNum 1) (VNum 50) w).
  reflexivity.
Defined.

(** C7 - Last write wins on state: [schedule] on an open action overwrites
    [state] with its argument, whatever was stored and whatever becomes of
    the timer; after [schedule(s1, d1)] followed by [schedule(s2, d2)] the
    stored state is [s2]. *)
Theorem schedule_last_write_wins this s1 d1 s2 d2 w :
  closed (heap w this) = false ->
  let w1 := world_of (schedule this s1 d1 w) in
  let w2 := world_of (schedule this s2 d2 w1) in
  state (heap w1 this) = s1 /\ state (heap w2 this) = s2.
Proof.
  intros Hc w1 w2.
  destruct (schedule_writes this s1 d1 w Hc) as (E1 & _ & Hc1 & _).
  destruct (schedule_writes this s2 d2 w1 Hc1) as (E2 & _).
  split; assumption.
Qed.

Lemma schedule_last_write_wins_witness :
  let w := new_world 0 idle [0] in
  let w1 := world_of (schedule 0 (VNum 1) (VNum 100) w) in
  let w2 := world_of (schedule 0 (VNum 2) (VNum 250) w1) in
  state (heap w1 0) = VNum 1 /\ state (heap w2 0) = VNum 2.
Proof.
  apply (schedule_last_write_wins 0 (VNum 1) (VNum 100) (VNum 2) (VNum 250)
           (new_world 0 idle [0])).
  reflexivity.
Defined.

(** C8 - Idempotent cancellation: [unsubscribe()] called N >= 1 times does
    what one call does; once a call has returned, [closed] is true, a further
    call changes nothing (the [_unsubscribe] step ran on the first call only)
    and no later call of any method on any action reopens the action; on a
    well-formed store the call returns. *)
Theorem unsubscribe_idempotent this w n :
  unsubscribe_times (S n) this w = unsubscribe this w
  /\ (forall w1, unsubscribe this w = Ret tt w1 ->
        closed (heap w1 this) = true
        /\ unsubscribe this w1 = Ret tt w1
        /\ forall cs, closed (heap (after_apis cs w1) this) = true)
  /\ (world_ok w -> exists w1, unsubscribe this w = Ret tt w1).
Proof.
  split; [apply unsubscribe_times_once|split].
  - intros w1 E.
    assert (Hc : closed (heap w1 this) = true).
    { pose proof (unsubscribe_closes this w) as H. now rewrite E in H. }
    repeat split; auto.
    + now apply unsubscribe_closed.
    + intros cs; now apply after_apis_closed.
  - intros H. destruct (unsubscribe_ok this w H) as [w1 [E _]]. eauto.
Qed.

Lemma unsubscribe_idempotent_witness :
  let w := world_of (schedule 0 (VNum 1) (VNum 50) (new_world 0 counter [3; 0; 5])) in
  unsubscribe_times 4 0 w = unsubscribe 0 w
  /\ exists w1, unsubscribe 0 w = Ret tt w1.
Proof.
  intros w.
  destruct (unsubscribe_idempotent 0 w 3) as (H1 & _ & H3).
  split; [exact H1|]. apply H3.
  destruct (schedule_ok 0 (VNum 1) (VNum 50) (new_world 0 counter [3; 0; 5]))
    as [w' [E H]].
  - apply new_world_ok. repeat constructor; cbn; intuition lia.
  - unfold w. rewrite E. exact H.
Defined.

(** C9 - Successful execution without reschedule drops the timer, not the
    action: when the work of an open action that holds a timer returns
    without a call on that action, [execute] cancels the timer and clears
    [id], and that is all it does to the action: [closed] stays false, [work]
    and [scheduler] stay set, the scheduler's arrays are as the work left
    them; a later [schedule] on the action records its state and requests a
    timer. *)
Theorem execute_without_reschedule this st dl wk cs w :
  world_ok w ->
  closed (heap w this) = false ->
  work (heap w this) = Some wk ->
  wk this st = (cs, Normal) ->
  Forall (fun c => call_target c <> this) cs ->
  is_nullish (id (heap w this)) = false ->
  exists w1,
    call_work this st (modify this (set_pending false) w) = Ret tt w1
    /\ execute this st dl w = Ret VUndefined (disarmed this w1)
    /\ heap (disarmed this w1) this
       = set_id VUndefined (set_pending false (heap w this))
    /\ closed (heap (disarmed this w1) this) = false
    /\ work (heap (disarmed this w1) this) = Some wk
    /\ scheduler (heap (disarmed this w1) this) = scheduler (heap w this)
    /\ scheduler (heap w this) <> None
    /\ actions (disarmed this w1) = actions w1
    /\ log (root (disarmed this w1))
       = log (root w1) ++ [ClearInterval (id (heap w this))]
    /\ live (root (disarmed this w1)) (id (heap w this)) = false
    /\ timers_of this (root (disarmed this w1)) = []
    /\ (forall st' dl',
           exists w3, schedule this st' dl' (disarmed this w1) = Ret this w3
                      /\ state (heap w3 this) = st'
                      /\ pending (heap w3 this) = true
                      /\ live (root w3) (id (heap w3 this)) = true
                      /\ requested (root w3)
                         = S (requested (root (disarmed this w1)))).
Proof.
  intros H Hc Hw Hk F Hn.
  set (w0 := modify this (set_pending false) w).
  assert (H0 : world_ok w0) by (apply modify_fields_ok; auto).
  assert (Hw0 : work (heap w0 this) = Some wk)
    by (unfold w0; now rewrite modify_heap_same).
  destruct (run_calls_ok cs w0 H0) as [w1 [E1 H1]].
  assert (Ew : call_work this st w0 = Ret tt w1).
  { rewrite (call_work_run _ _ _ _ _ _ Hw0 Hk). unfold bind. now rewrite E1. }
  assert (Eh : heap w1 this = set_pending false (heap w this)).
  { rewrite (run_calls_frame this cs w0 w1 H0 F E1).
    unfold w0; now rewrite modify_heap_same. }
  assert (Hc1 : closed (heap w1 this) = false) by (rewrite Eh; exact Hc).
  assert (Hn1 : is_nullish (id (heap w1 this)) = false) by (rewrite Eh; exact Hn).
  assert (H2 : world_ok (disarmed this w1)) by (apply disarmed_ok; auto).
  exists w1; split; [exact Ew|].
  split.
  { rewrite (execute_returned _ _ dl _ _ Hc Ew).
    f_equal. apply settled_disarms; auto. now rewrite Eh. }
  assert (Eh2 : heap (disarmed this w1) this
                = set_id VUndefined (set_pending false (heap w this)))
    by (rewrite disarmed_heap_same, Eh; reflexivity).
  assert (Er : root (disarmed this w1)
               = snd (clearInterval (root w1) (id (heap w this))))
    by (rewrite disarmed_root, Eh; reflexivity).
  repeat split.
  - exact Eh2.
  - rewrite Eh2; exact Hc.
  - rewrite Eh2; exact Hw.
  - rewrite Eh2; reflexivity.
  - now apply (ok_open _ H).
  - rewrite Er; reflexivity.
  - rewrite Er; apply live_after_clear.
  - apply timers_of_none; auto. rewrite Eh2; reflexivity.
  - intros st' dl'.
    assert (Hc2 : closed (heap (disarmed this w1) this) = false)
      by (rewrite Eh2; exact Hc).
    destruct (schedule_ok this st' dl' _ H2) as [w3 [E3 H3]].
    exists w3; split; [exact E3|].
    destruct (schedule_writes this st' dl' _ Hc2) as (Es & Hp & _).
    rewrite E3 in Es, Hp; cbn in Es, Hp.
    destruct (schedule_open_holds_timer _ _ _ _ _ H2 Hc2 E3) as (_ & Hi & _).
    repeat split; auto.
    + now apply ok_id_live.
    + destruct (scheduler (heap (disarmed this w1) this)) as [s|] eqn:Hs;
        [|now elim (ok_open _ H2 this Hc2)].
      rewrite (schedule_arms _ _ st' dl' _ Hc2 Hs) in E3
        by (rewrite Eh2; reflexivity).
      injection E3 as <-. fields. apply requested_set.
Qed.

Lemma execute_without_reschedule_witness :
  let w := world_of (schedule 0 (VNum 1) (VNum 100) (new_world 0 idle [0])) in
  exists w1,
    execute 0 (VNum 1) (VNum 100) w = Ret VUndefined (disarmed 0 w1)
    /\ closed (heap (disarmed 0 w1) 0) = false
    /\ live (root (disarmed 0 w1)) (id (heap w 0)) = false.
Proof.
  intros w.
  destruct (schedule_ok 0 (VNum 1) (VNum 100) (new_world 0 idle [0]))
    as [w' [E H]].
  { apply new_world_ok. repeat constructor; cbn; tauto. }
  assert (Hw : world_ok w) by (unfold w; rewrite E; exact H).
  destruct (execute_without_reschedule 0 (VNum 1) (VNum 100) idle [] w Hw)
    as [w1 (_ & E1 & _ & Hc & _ & _ & _ & _ & _ & Hl & _)];
    try reflexivity.
  { constructor. }
  exists w1; repeat split; assumption.
Defined.

(** C10 - A work failure is never taken for success: whatever value [e] the
    work throws, falsy ones included, the error value [_execute] returns is
    truthy: [e] itself when [e] is truthy, [new Error(e)] otherwise.  On an
    open action [_execute] therefore returns a truthy value when the work
    raised, and [execute] returns it to its caller; when the work returned,
    [_execute] returns [undefined], which is falsy, and [execute] goes on to
    the post-execution check and returns [undefined]. *)
Theorem work_failure_never_conflated this st dl w :
  world_ok w ->
  closed (heap w this) = false ->
  let w0 := modify this (set_pending false) w in
  (forall e, truthy (caught e) = true
             /\ caught e = (if truthy e then e else VError e))
  /\ (forall e w1, call_work this st w0 = Thr e w1 ->
        exists w2, _execute this st dl w0 = Ret (caught e) w2
                   /\ execute this st dl w = Ret (caught e) w2)
  /\ (forall w1, call_work this st w0 = Ret tt w1 ->
        _execute this st dl w0 = Ret VUndefined w1
        /\ truthy VUndefined = false
        /\ execute this st dl w = Ret VUndefined (settled this w1)).
Proof.
  intros H Hc w0.
  assert (H0 : world_ok w0) by (apply modify_fields_ok; auto).
  split; [|split].
  - intros e; split; [apply caught_truthy | apply caught_cases].
  - intros e w1 Ew.
    pose proof (call_work_ok this st _ H0) as H1. rewrite Ew in H1; cbn in H1.
    destruct (unsubscribe_ok this w1 H1) as [w2 [E2 H2]].
    exists w2; split.
    + rewrite (_execute_threw _ _ dl _ _ _ Ew). unfold bind; now rewrite E2.
    + now apply execute_threw with (w1 := w1).
  - intros w1 Ew. repeat split.
    + now apply _execute_returned.
    + now apply execute_returned.
Qed.

Lemma work_failure_never_conflated_witness :
  let w := world_of (schedule 0 (VNum 1) (VNum 50) (new_world 0 failing [0])) in
  truthy (VNum 0) = false
  /\ exists w2, execute 0 (VNum 1) (VNum 50) w = Ret (VError (VNum 0)) w2.
Proof.
  intros w. split; [reflexivity|].
  destruct (schedule_ok 0 (VNum 1) (VNum 50) (new_world 0 failing [0]))
    as [w' [E H]].
  { apply new_world_ok. repeat constructor; cbn; tauto. }
  assert (Hw : world_ok w) by (unfold w; rewrite E; exact H).
  destruct (work_failure_never_conflated 0 (VNum 1) (VNum 50) w Hw)
    as (_ & H2 & _); [reflexivity|].
  destruct (H2 (VNum 0) (modify 0 (set_pending false) w)) as [w2 [_ E2]];
    [reflexivity|].
  exists w2. exact E2.
Defined.

(** * Further properties *)

(** ** One timer per action *)

Lemma NoDup_map_same {A B : Type} (f : A -> B) (l : list A) :
  NoDup (map f l) -> (forall x y, In x l -> In y l -> f x = f y) ->
  (List.length l <= 1)%nat.
Proof.
  destruct l as [|x [|y l]]; cbn; intros N H; try lia.
  exfalso. inversion N as [|? ? Hx _]; subst. apply Hx.
  rewrite (H x y) by auto. now left.
Qed.

Lemma timers_of_In this r t :
  In t (timers_of this r) <-> In t (intervals r) /\ flush_action t = this.
Proof.
  unfold timers_of; rewrite filter_In, Nat.eqb_eq; reflexivity.
Qed.

Lemma timers_of_at_most_one w k :
  world_ok w -> (List.length (timers_of k (root w)) <= 1)%nat.
Proof.
  intros H. apply (NoDup_map_same handle).
  - apply NoDup_map_filter. exact (ok_handles _ H).
  - intros x y Hx Hy.
    apply timers_of_In in Hx; apply timers_of_In in Hy.
    destruct Hx as [Hx Ex], Hy as [Hy Ey].
    pose proof (ok_timer _ H x Hx) as X. pose proof (ok_timer _ H y Hy) as Y.
    rewrite Ex in X; rewrite Ey in Y. congruence.
Qed.

Lemma timers_of_some w k :
  world_ok w -> is_nullish (id (heap w k)) = false -> timers_of k (root w) <> [].
Proof.
  intros H Hn E. destruct (ok_id _ H k Hn) as [t (Ht & Eb & _)].
  assert (X : In t (timers_of k (root w))) by (apply timers_of_In; auto).
  now rewrite E in X.
Qed.

(** X1 - One timer per action, and none leaked: starting from a well-formed
    store, after any sequence of [schedule], [execute] and [unsubscribe]
    calls on any actions, an action has at most one registered timer bound to
    it; it has one exactly when its [id] is present, and [id] is then that
    timer's handle; a closed action has none. *)
Theorem no_timer_leak w cs k :
  world_ok w ->
  let w' := after_apis cs w in
  (List.length (timers_of k (root w')) <= 1)%nat
  /\ (forall t, In t (timers_of k (root w')) -> id (heap w' k) = VNum (handle t))
  /\ (timers_of k (root w') = [] <-> is_nullish (id (heap w' k)) = true)
  /\ (closed (heap w' k) = true -> timers_of k (root w') = []).
Proof.
  intros H w'.
  assert (H' : world_ok w') by now apply after_apis_ok.
  split; [now apply timers_of_at_most_one|].
  split.
  { intros t Ht. apply timers_of_In in Ht. destruct Ht as [Ht <-].
    now apply (ok_timer _ H'). }
  split.
  - split.
    + intros E. destruct (is_nullish (id (heap w' k))) eqn:Hn; auto.
      now elim (timers_of_some w' k H' Hn).
    + now apply timers_of_none.
  - intros Hc. apply timers_of_none; auto.
    now destruct (ok_closed _ H' k Hc) as (_ & _ & _ & _ & _ & X).
Qed.

Lemma no_timer_leak_witness :
  let w := after_apis [ApiSchedule 0 (VNum 0) (VNum 50);
                       ApiExecute 0 (VNum 0) (VNum 50);
                       ApiSchedule 0 (VNum 7) (VNum 20);
                       ApiSchedule 1 (VNum 0) (VNum 50)]
                      (new_world 0 counter [0; 1]) in
  (List.length (timers_of 0 (root w)) <= 1)%nat.
Proof.
  apply (no_timer_leak (new_world 0 counter [0; 1])).
  apply new_world_ok. repeat constructor; cbn; intuition lia.
Defined.

(** ** Timers run at the recorded delay *)

Lemma timers_match_weaken this w : timers_match w -> timers_match_but this w.
Proof. intros H t Ht _; now apply H. Qed.

Lemma timers_match_but_modify this f w :
  timers_match_but this w -> timers_match_but this (modify this f w).
Proof.
  intros H t Ht N. rewrite modify_heap_other by exact N. now apply H.
Qed.

(** No timer is bound to an action whose [id] is absent. *)
Lemma no_timer_of_nullish w this t :
  world_ok w -> is_nullish (id (heap w this)) = true ->
  In t (intervals (root w)) -> flush_action t <> this.
Proof.
  intros H Hn Ht E. pose proof (ok_timer _ H t Ht) as X. rewrite E in X.
  eapply nullish_VNum_contra; eauto.
Qed.

Lemma timers_match_full this w :
  world_ok w -> is_nullish (id (heap w this)) = true ->
  timers_match_but this w -> timers_match w.
Proof.
  intros H Hn M t Ht. apply M; auto. eapply no_timer_of_nullish; eauto.
Qed.

Lemma timers_match_disarmed this w :
  world_ok w ->
  closed (heap w this) = false ->
  is_nullish (id (heap w this)) = false ->
  timers_match_but this w -> timers_match (disarmed this w).
Proof.
  intros H Hc Hn M.
  apply (timers_match_full this).
  - now apply disarmed_ok.
  - now rewrite disarmed_heap_same.
  - intros t Ht N. rewrite disarmed_heap_other by exact N.
    rewrite disarmed_root in Ht. cbn in Ht. apply filter_In in Ht.
    apply M; tauto.
Qed.

Lemma timers_match_armed this s d w :
  world_ok w ->
  is_nullish (id (heap w this)) = true ->
  delay (heap w this) = d ->
  scheduler (heap w this) = Some s ->
  timers_match_but this w -> timers_match (armed this s d w).
Proof.
  intros H Hn Ed Es M t Ht.
  rewrite armed_root in Ht; cbn in Ht. destruct Ht as [<-|Ht].
  - cbn [period flush_action flush_scheduler].
    rewrite armed_heap_same; cbn. auto.
  - assert (N : flush_action t <> this) by (eapply no_timer_of_nullish; eauto).
    rewrite armed_heap_other by exact N. now apply M.
Qed.

Lemma timers_match_closed_off this s w :
  world_ok w ->
  is_nullish (id (heap w this)) = true ->
  timers_match_but this w -> timers_match (closed_off this s w).
Proof.
  intros H Hn M t Ht. cbn in Ht.
  assert (N : flush_action t <> this) by (eapply no_timer_of_nullish; eauto).
  cbn [closed_off heap]. rewrite upd_other by exact N. now apply M.
Qed.

Lemma keeps_true_delay a d : keeps a d = true -> delay a = d.
Proof.
  unfold keeps; intros E. apply andb_true_iff in E. destruct E as [_ E].
  apply strict_eq_true in E. tauto.
Qed.

Lemma schedule_match this st dl w w' :
  world_ok w -> timers_match w ->
  schedule this st dl w = Ret this w' -> timers_match w'.
Proof.
  intros H M E.
  destruct (closed (heap w this)) eqn:Hc.
  - rewrite (schedule_closed _ st dl _ Hc) in E. now injection E as <-.
  - destruct (scheduler (heap w this)) as [s|] eqn:Hs;
      [|now elim (ok_open _ H this Hc)].
    rewrite (schedule_open _ st dl _ _ Hc Hs) in E. injection E as <-.
    cbn zeta. set (d := default_arg dl (VNum 0)).
    assert (H1 : world_ok (modify this (noted st d) w))
      by (apply modify_fields_ok; auto).
    assert (M1 : timers_match_but this (modify this (noted st d) w))
      by (apply timers_match_but_modify, timers_match_weaken, M).
    unfold survives.
    destruct (is_nullish (id (heap w this))) eqn:Hn; cbn [negb andb orb].
    + fields. rewrite (nullish_falsy _ Hn).
      apply timers_match_armed; auto; fields; auto.
    + destruct (keeps (heap w this) d) eqn:Hk; cbn [orb].
      * fields. rewrite (ok_id_truthy _ _ H Hn).
        intros t Ht. cbn in Ht.
        destruct (Nat.eq_dec (flush_action t) this) as [Et|Nt].
        -- rewrite Et, modify_heap_same; cbn.
           destruct (M t Ht) as [Mp Ms]. rewrite Et in Mp, Ms.
           split; [|exact Ms]. rewrite Mp. now apply keeps_true_delay.
        -- now apply M1.
      * fields. cbn [truthy].
        assert (H2 : world_ok (disarmed this (modify this (noted st d) w)))
          by (apply disarmed_ok; auto; fields; auto).
        apply timers_match_armed; auto; fields; auto.
        apply timers_match_weaken, timers_match_disarmed; auto; fields; auto.
Qed.

Lemma unsubscribe_match this w w' :
  world_ok w -> timers_match w ->
  unsubscribe this w = Ret tt w' -> timers_match w'.
Proof.
  intros H M E.
  destruct (closed (heap w this)) eqn:Hc.
  - rewrite (unsubscribe_closed _ _ Hc) in E. now injection E as <-.
  - destruct (scheduler (heap w this)) as [s|] eqn:Hs;
      [|now elim (ok_open _ H this Hc)].
    rewrite (unsubscribe_open _ _ _ Hc Hs) in E. injection E as <-.
    rewrite torn_down_world_steps.
    destruct (is_nullish (id (heap w this))) eqn:Hn.
    + apply timers_match_closed_off; auto. now apply timers_match_weaken.
    + apply timers_match_closed_off.
      * now apply disarmed_ok.
      * now rewrite disarmed_heap_same.
      * apply timers_match_weaken, timers_match_disarmed; auto.
        now apply timers_match_weaken.
Qed.

Lemma run_calls_match cs w w' :
  world_ok w -> timers_match w ->
  run_calls cs w = Ret tt w' -> timers_match w'.
Proof.
  revert w; induction cs as [|c cs IH]; intros w H M E; cbn in E.
  - now injection E as <-.
  - unfold bind in E.
    destruct (run_call_ok c w H) as [w1 [E1 H1]]. rewrite E1 in E.
    apply (IH w1 H1); auto.
    destruct c as [k st dl|k]; cbn in E1.
    + unfold bind in E1.
      destruct (schedule_ok k st dl w H) as [w2 [E2 _]]. rewrite E2 in E1.
      injection E1 as <-. exact (schedule_match k st dl w w2 H M E2).
    + exact (unsubscribe_match k w w1 H M E1).
Qed.

Lemma call_work_match this st w :
  world_ok w -> timers_match w ->
  timers_match (world_of (call_work this st w)).
Proof.
  intros H M. unfold call_work. unfold bind at 1, get at 1.
  destruct (work (heap w this)) as [wk|]; [|exact M].
  destruct (wk this st) as [cs fin].
  destruct (run_calls_ok cs w H) as [w1 [E1 H1]].
  unfold bind; rewrite E1.
  pose proof (run_calls_match cs w w1 H M E1).
  now destruct fin.
Qed.

Lemma timers_match_fields this f w :
  timers_match w ->
  delay (f (heap w this)) = delay (heap w this) ->
  scheduler (f (heap w this)) = scheduler (heap w this) ->
  timers_match (modify this f w).
Proof.
  intros M Ed Es t Ht. cbn in Ht.
  destruct (Nat.eq_dec (flush_action t) this) as [Et|Nt].
  - rewrite Et, modify_heap_same, Ed, Es. rewrite <- Et. now apply M.
  - rewrite modify_heap_other by exact Nt. now apply M.
Qed.

Lemma settled_match this w :
  world_ok w -> timers_match w -> timers_match (settled this w).
Proof.
  intros H M; unfold settled.
  destruct (Bool.eqb (pending (heap w this)) false) eqn:Hp; cbn [andb]; auto.
  destruct (is_nullish (id (heap w this))) eqn:Hn; cbn [negb]; auto.
  apply timers_match_disarmed; auto; [|now apply timers_match_weaken].
  destruct (closed (heap w this)) eqn:Hc; auto.
  destruct (ok_closed _ H this Hc) as (_ & _ & _ & _ & _ & Hi). congruence.
Qed.

Lemma execute_match this st dl w :
  world_ok w -> timers_match w ->
  timers_match (world_of (execute this st dl w)).
Proof.
  intros H M.
  destruct (closed (heap w this)) eqn:Hc.
  - now rewrite (execute_closed _ st dl _ Hc).
  - assert (H0 : world_ok (modify this (set_pending false) w))
      by (apply modify_fields_ok; auto).
    assert (M0 : timers_match (modify this (set_pending false) w))
      by (apply timers_match_fields; auto).
    pose proof (call_work_ok this st _ H0) as H1.
    pose proof (call_work_match this st _ H0 M0) as M1.
    destruct (call_work this st (modify this (set_pending false) w))
      as [[] w1|e w1] eqn:Hw; cbn in H1, M1.
    + rewrite (execute_returned _ _ dl _ _ Hc Hw); cbn [world_of].
      now apply settled_match.
    + destruct (unsubscribe_ok this w1 H1) as [w2 [E2 H2]].
      rewrite (execute_threw _ _ dl _ _ _ _ Hc Hw E2); cbn [world_of].
      exact (unsubscribe_match this w1 w2 H1 M1 E2).
Qed.

Lemma run_api_match c w :
  world_ok w -> timers_match w -> timers_match (world_of (run_api c w)).
Proof.
  intros H M; destruct c as [k st dl|k st dl|k]; cbn [run_api].
  - destruct (schedule_ok k st dl w H) as [w' [E H']].
    unfold bind; rewrite E; cbn [world_of ret].
    exact (schedule_match k st dl w w' H M E).
  - pose proof (execute_match k st dl w H M) as X.
    unfold bind. destruct (execute k st dl w); exact X.
  - destruct (unsubscribe_ok k w H) as [w' [E H']].
    rewrite E; cbn [world_of]. exact (unsubscribe_match k w w' H M E).
Qed.

Lemma after_apis_match cs w :
  world_ok w -> timers_match w -> timers_match (after_apis cs w).
Proof.
  revert w; induction cs as [|c cs IH]; intros w H M; cbn; auto.
  destruct (run_api_ok c w H) as [w' [E H']].
  apply IH.
  - now rewrite E.
  - now apply run_api_match.
Qed.

(** X2 - A timer always runs at the recorded delay: starting from a
    well-formed store in which it is so, after any sequence of [schedule],
    [execute] and [unsubscribe] calls, every registered timer has for period
    the [delay] its action records and flushes the scheduler of its action;
    [schedule] keeps a timer only when the delay is unchanged. *)
Theorem timer_period_is_delay w cs :
  world_ok w -> timers_match w ->
  forall t, In t (intervals (root (after_apis cs w))) ->
            let a := heap (after_apis cs w) (flush_action t) in
            period t = delay a
            /\ scheduler a = Some (flush_scheduler t)
            /\ id a = VNum (handle t)
            /\ closed a = false.
Proof.
  intros H M t Ht a.
  pose proof (after_apis_ok cs w H) as H'.
  destruct (after_apis_match cs w H M t Ht) as [Ep Es].
  pose proof (ok_timer _ H' t Ht) as Ei.
  repeat split; auto.
  destruct (closed a) eqn:Hc; auto.
  destruct (ok_closed _ H' _ Hc) as (_ & _ & _ & _ & _ & X).
  unfold a in X. rewrite Ei in X. discriminate.
Qed.

Lemma timer_period_is_delay_witness :
  let w := after_apis [ApiSchedule 0 (VNum 0) (VNum 50);
                       ApiExecute 0 (VNum 0) (VNum 50);
                       ApiSchedule 0 (VNum 7) (VNum 20)]
                      (new_world 0 counter [0]) in
  Forall (fun t => period t = delay (heap w (flush_action t)))
         (intervals (root w)).
Proof.
  intros w. apply Forall_forall. intros t Ht.
  apply (timer_period_is_delay (new_world 0 counter [0])
           [ApiSchedule 0 (VNum 0) (VNum 50);
            ApiExecute 0 (VNum 0) (VNum 50);
            ApiSchedule 0 (VNum 7) (VNum 20)]).
  - apply new_world_ok. repeat constructor; cbn; tauto.
  - intros t' [].
  - exact Ht.
Defined.

(** ** A timer only for a pending action *)

Lemma schedule_pending this k st dl w w' :
  world_ok w -> pending_if_timer w k ->
  schedule this st dl w = Ret this w' -> pending_if_timer w' k.
Proof.
  intros H P E. unfold pending_if_timer.
  destruct (Nat.eq_dec k this) as [->|N].
  - destruct (closed (heap w this)) eqn:Hc.
    + rewrite (schedule_closed _ st dl _ Hc) in E. injection E as <-. exact P.
    + intros _. now destruct (schedule_open_holds_timer _ _ _ _ _ H Hc E).
  - now rewrite (schedule_frame k this st dl w w' H (not_eq_sym N) E).
Qed.

Lemma unsubscribe_no_timer this w w' :
  world_ok w -> unsubscribe this w = Ret tt w' ->
  is_nullish (id (heap w' this)) = true.
Proof.
  intros H E. destruct (unsubscribe_ok this w H) as [w2 [E2 H2]].
  rewrite E in E2. injection E2 as <-.
  pose proof (unsubscribe_closes this w) as Hc. rewrite E in Hc; cbn in Hc.
  now destruct (ok_closed _ H2 this Hc) as (_ & _ & _ & _ & _ & X).
Qed.

Lemma unsubscribe_pending this k w w' :
  world_ok w -> pending_if_timer w k ->
  unsubscribe this w = Ret tt w' -> pending_if_timer w' k.
Proof.
  intros H P E. unfold pending_if_timer.
  destruct (Nat.eq_dec k this) as [->|N].
  - rewrite (unsubscribe_no_timer this w w' H E). discriminate.
  - now rewrite (unsubscribe_frame k this w w' H (not_eq_sym N) E).
Qed.

Lemma run_calls_pending cs k w w' :
  world_ok w -> pending_if_timer w k ->
  run_calls cs w = Ret tt w' -> pending_if_timer w' k.
Proof.
  revert w; induction cs as [|c cs IH]; intros w H P E; cbn in E.
  - now injection E as <-.
  - unfold bind in E.
    destruct (run_call_ok c w H) as [w1 [E1 H1]]. rewrite E1 in E.
    apply (IH w1 H1); auto.
    destruct c as [t st dl|t]; cbn [run_call] in E1.
    + unfold bind in E1.
      destruct (schedule_ok t st dl w H) as [w2 [E2 _]]. rewrite E2 in E1.
      injection E1 as <-. exact (schedule_pending t k st dl w w2 H P E2).
    + exact (unsubscribe_pending t k w w1 H P E1).
Qed.

Lemma call_work_pending this st k w :
  world_ok w -> pending_if_timer w k ->
  pending_if_timer (world_of (call_work this st w)) k.
Proof.
  intros H P. unfold call_work. unfold bind at 1, get at 1.
  destruct (work (heap w this)) as [wk|]; [|exact P].
  destruct (wk this st) as [cs fin].
  destruct (run_calls_ok cs w H) as [w1 [E1 H1]].
  unfold bind; rewrite E1.
  pose proof (run_calls_pending cs k w w1 H P E1).
  now destruct fin.
Qed.

Lemma settled_pending_if_timer this k w :
  (k <> this -> pending_if_timer w k) -> pending_if_timer (settled this w) k.
Proof.
  intros P. unfold pending_if_timer, settled.
  destruct (Nat.eq_dec k this) as [->|N].
  - destruct (pending (heap w this)) eqn:Hp; cbn [Bool.eqb andb]; auto.
    destruct (is_nullish (id (heap w this))) eqn:Hn; cbn [negb].
    + congruence.
    + rewrite disarmed_heap_same; cbn. discriminate.
  - specialize (P N).
    destruct (_ && _); [rewrite disarmed_heap_other by exact N|]; exact P.
Qed.

Lemma execute_pending this st dl k w :
  world_ok w -> pending_if_timer w k ->
  pending_if_timer (world_of (execute this st dl w)) k.
Proof.
  intros H P.
  destruct (closed (heap w this)) eqn:Hc.
  - now rewrite (execute_closed _ st dl _ Hc).
  - assert (H0 : world_ok (modify this (set_pending false) w))
      by (apply modify_fields_ok; auto).
    pose proof (call_work_ok this st _ H0) as H1.
    assert (P1 : k <> this ->
                 pending_if_timer
                   (world_of (call_work this st (modify this (set_pending false) w)))
                   k).
    { intros N. apply call_work_pending; auto.
      unfold pending_if_timer. now rewrite modify_heap_other. }
    destruct (call_work this st (modify this (set_pending false) w))
      as [[] w1|e w1] eqn:Hw; cbn [world_of] in H1, P1.
    + rewrite (execute_returned _ _ dl _ _ Hc Hw); cbn [world_of].
      now apply settled_pending_if_timer.
    + destruct (unsubscribe_ok this w1 H1) as [w2 [E2 H2]].
      rewrite (execute_threw _ _ dl _ _ _ _ Hc Hw E2); cbn [world_of].
      destruct (Nat.eq_dec k this) as [->|N].
      * unfold pending_if_timer.
        rewrite (unsubscribe_no_timer this w1 w2 H1 E2). discriminate.
      * exact (unsubscribe_pending this k w1 w2 H1 (P1 N) E2).
Qed.

Lemma run_api_pending c k w :
  world_ok w -> pending_if_timer w k ->
  pending_if_timer (world_of (run_api c w)) k.
Proof.
  intros H P; destruct c as [t st dl|t st dl|t]; cbn [run_api].
  - destruct (schedule_ok t st dl w H) as [w' [E H']].
    unfold bind; rewrite E; cbn [world_of ret].
    exact (schedule_pending t k st dl w w' H P E).
  - pose proof (execute_pending t st dl k w H P) as X.
    unfold bind. destruct (execute t st dl w); exact X.
  - destruct (unsubscribe_ok t w H) as [w' [E H']].
    rewrite E; cbn [world_of]. exact (unsubscribe_pending t k w w' H P E).
Qed.

(** X3 - A timer only for a pending action: starting from a well-formed
    store in which every action that holds a timer is pending, after any
    sequence of [schedule], [execute] and [unsubscribe] calls an action that
    holds a timer is pending; an action that is not pending has no timer
    registered: [execute] never returns leaving a timer that no [schedule]
    asked to keep. *)
Theorem timer_only_if_pending w cs k :
  world_ok w ->
  (forall j, pending_if_timer w j) ->
  let w' := after_apis cs w in
  pending_if_timer w' k
  /\ (pending (heap w' k) = false -> timers_of k (root w') = []).
Proof.
  intros H P w'.
  assert (X : world_ok w' /\ pending_if_timer w' k).
  { unfold w'; clear w'. revert w H P; induction cs as [|c cs IH];
      intros w H P; cbn [after_apis]; auto.
    destruct (run_api_ok c w H) as [w1 [E1 H1]].
    apply IH.
    - now rewrite E1.
    - intros j. now apply run_api_pending. }
  destruct X as [H' P']. split; [exact P'|].
  intros Hp. apply timers_of_none; auto.
  destruct (is_nullish (id (heap w' k))) eqn:Hn; auto.
  specialize (P' Hn). congruence.
Qed.

Lemma timer_only_if_pending_witness :
  let w := after_apis [ApiSchedule 0 (VNum 1) (VNum 100);
                       ApiExecute 0 (VNum 1) (VNum 100)]
                      (new_world 0 idle [0]) in
  pending (heap w 0) = false /\ timers_of 0 (root w) = [].
Proof.
  intros w. split; [reflexivity|].
  apply (timer_only_if_pending (new_world 0 idle [0])
           [ApiSchedule 0 (VNum 1) (VNum 100); ApiExecute 0 (VNum 1) (VNum 100)]).
  - apply new_world_ok. repeat constructor; cbn; tauto.
  - intros j; unfold pending_if_timer; cbn; discriminate.
  - reflexivity.
Defined.

(** ** Errors *)

(** X4 - [execute] never throws on a well-formed store: whatever the work
    does, it returns, and leaves a well-formed store; what it returns is
    [undefined] when the action was open and the work returned, and a truthy
    error value otherwise (the cancellation error on a closed action, the
    value caught from the work on an open one). *)
Theorem execute_never_throws this st dl w :
  world_ok w ->
  exists v w',
    execute this st dl w = Ret v w'
    /\ world_ok w'
    /\ (closed (heap w this) = true ->
        v = VError (VStr "executing a cancelled action") /\ w' = w)
    /\ (forall w1,
          closed (heap w this) = false ->
          call_work this st (modify this (set_pending false) w) = Ret tt w1 ->
          v = VUndefined)
    /\ (forall e w1,
          closed (heap w this) = false ->
          call_work this st (modify this (set_pending false) w) = Thr e w1 ->
          v = caught e /\ truthy v = true /\ closed (heap w' this) = true).
Proof.
  intros H.
  destruct (closed (heap w this)) eqn:Hc.
  - exists (VError (VStr "executing a cancelled action")), w.
    split; [now apply execute_closed|].
    split; [exact H|]. split; [auto|]. split; discriminate.
  - assert (H0 : world_ok (modify this (set_pending false) w))
      by (apply modify_fields_ok; auto).
    pose proof (call_work_ok this st _ H0) as H1.
    destruct (call_work this st (modify this (set_pending false) w))
      as [[] w1|e w1] eqn:Hw; cbn [world_of] in H1.
    + exists VUndefined, (settled this w1).
      split; [now apply execute_returned|].
      split; [now apply settled_ok|].
      split; [discriminate|]. split; [reflexivity|].
      intros e w2 _ X; discriminate X.
    + destruct (unsubscribe_ok this w1 H1) as [w2 [E2 H2]].
      exists (caught e), w2.
      split; [now apply execute_threw with (w1 := w1)|].
      split; [exact H2|].
      split; [discriminate|]. split; [intros w3 _ X; discriminate X|].
      intros e' w3 _ X. injection X as <- <-.
      split; [reflexivity|]. split; [apply caught_truthy|].
      pose proof (unsubscribe_closes this w1) as X. now rewrite E2 in X.
Qed.

Lemma execute_never_throws_witness :
  let w := world_of (schedule 0 (VNum 1) (VNum 50) (new_world 0 failing [0])) in
  exists v w', execute 0 (VNum 1) (VNum 50) w = Ret v w' /\ world_ok w'.
Proof.
  intros w.
  destruct (schedule_ok 0 (VNum 1) (VNum 50) (new_world 0 failing [0]))
    as [w' [E H]].
  { apply new_world_ok. repeat constructor; cbn; tauto. }
  assert (Hw : world_ok w) by (unfold w; rewrite E; exact H).
  destruct (execute_never_throws 0 (VNum 1) (VNum 50) w Hw)
    as [v [w2 (E2 & H2 & _)]].
  exists v, w2; split; assumption.
Defined.

(** X5 - A [work] that is not callable: [execute] on an open action whose
    [work] is [null] catches the engine's error inside [_execute], returns it
    as the error value and tears the action down. *)
Theorem execute_null_work this st dl w :
  world_ok w ->
  closed (heap w this) = false ->
  work (heap w this) = None ->
  exists v w',
    execute this st dl w = Ret v w'
    /\ v = VTypeError "this.work is not a function"
    /\ truthy v = true
    /\ closed (heap w' this) = true
    /\ is_nullish (id (heap w' this)) = true
    /\ timers_of this (root w') = []
    /\ (forall s, ~ In this (actions w' s)).
Proof.
  intros H Hc Hw.
  assert (H0 : world_ok (modify this (set_pending false) w))
    by (apply modify_fields_ok; auto).
  assert (Ew : call_work this st (modify this (set_pending false) w)
               = Thr (VTypeError "this.work is not a function")
                     (modify this (set_pending false) w)).
  { unfold call_work, bind, get. rewrite modify_heap_same; cbn [work set_pending].
    now rewrite Hw. }
  destruct (unsubscribe_ok this _ H0) as [w2 [E2 H2]].
  assert (Hc2 : closed (heap w2 this) = true).
  { pose proof (unsubscribe_closes this (modify this (set_pending false) w)) as X.
    now rewrite E2 in X. }
  destruct (ok_closed _ H2 this Hc2) as (_ & _ & _ & _ & _ & Hi).
  exists (VTypeError "this.work is not a function"), w2.
  split; [exact (execute_threw _ _ dl _ _ _ _ Hc Ew E2)|].
  repeat split; auto.
  - now apply timers_of_none.
  - intros s Hin. destruct (ok_queue _ H2 s this Hin) as [X _]. congruence.
Qed.

Lemma execute_null_work_witness :
  let w := modify 0 (set_work None)
             (world_of (schedule 0 (VNum 1) (VNum 50) (new_world 0 idle [0]))) in
  exists v w', execute 0 (VNum 1) (VNum 50) w = Ret v w'
               /\ closed (heap w' 0) = true
               /\ timers_of 0 (root w') = [].
Proof.
  intros w.
  destruct (schedule_ok 0 (VNum 1) (VNum 50) (new_world 0 idle [0]))
    as [w' [E H]].
  { apply new_world_ok. repeat constructor; cbn; tauto. }
  assert (Hw : world_ok w).
  { unfold w; rewrite E; cbn [world_of].
    apply modify_fields_ok; auto.
    pose proof (schedule_writes 0 (VNum 1) (VNum 50) (new_world 0 idle [0])
                  eq_refl) as X.
    rewrite E in X. cbn [world_of] in X. tauto. }
  destruct (execute_null_work 0 (VNum 1) (VNum 50) w Hw)
    as [v [w2 (E2 & _ & _ & Hc & _ & Ht & _)]]; try reflexivity.
  exists v, w2; repeat split; assumption.
Defined.

(** X6 - An action without scheduler: on an open action whose [scheduler] is
    [null] and which holds no timer, [schedule] throws when it reads
    [scheduler.flush] to request the timer; by then it has recorded [state],
    [pending] and [delay]; [id] stays absent and the runtime is not called. *)
Theorem schedule_without_scheduler_throws this st dl w :
  closed (heap w this) = false ->
  scheduler (heap w this) = None ->
  is_nullish (id (heap w this)) = true ->
  exists e w',
    schedule this st dl w = Thr e w'
    /\ e = VTypeError "Cannot read property 'flush' of null"
    /\ heap w' this = noted st (default_arg dl (VNum 0)) (heap w this)
    /\ (forall k, k <> this -> heap w' k = heap w k)
    /\ root w' = root w
    /\ actions w' = actions w.
Proof.
  intros Hc Hs Hn.
  exists (VTypeError "Cannot read property 'flush' of null"),
         (modify this (noted st (default_arg dl (VNum 0))) w).
  split.
  - unfold schedule, requestAsyncId.
    unfold bind, get, assign, ret, throw; cbn beta iota zeta.
    rewrite Hc, Hs, Hn; cbn [negb]. fields.
    rewrite (nullish_falsy _ Hn). reflexivity.
  - split; [reflexivity|]. split; [apply modify_heap_same|].
    split; [intros k N; now apply modify_heap_other|]. split; reflexivity.
Qed.

Lemma schedule_without_scheduler_throws_witness :
  let w := modify 0 (set_scheduler None) (new_world 0 idle [0]) in
  exists e w', schedule 0 (VNum 1) (VNum 50) w = Thr e w'
               /\ state (heap w' 0) = VNum 1 /\ root w' = root w.
Proof.
  intros w.
  destruct (schedule_without_scheduler_throws 0 (VNum 1) (VNum 50) w)
    as [e [w' (E & _ & Eh & _ & Er & _)]]; try reflexivity.
  exists e, w'. split; [exact E|]. split; [now rewrite Eh | exact Er].
Defined.

(** ** The scheduler's array *)

(** X7 - [_unsubscribe] takes one entry out of the array: run on an action
    of scheduler [s], it removes the first occurrence of the action from
    [s.actions] and nothing else: the other entries keep their order and
    number, an array that does not hold the action is unchanged, arrays of
    other schedulers are untouched, and an action the array held more than
    once is still in it. *)
Theorem _unsubscribe_removes_first_entry this s w :
  scheduler (heap w this) = Some s ->
  exists w',
    _unsubscribe this w = Ret tt w'
    /\ actions w' s = remove_first this (actions w s)
    /\ count_occ Nat.eq_dec (actions w' s) this
       = Nat.pred (count_occ Nat.eq_dec (actions w s) this)
    /\ (forall k, k <> this ->
                  count_occ Nat.eq_dec (actions w' s) k
                  = count_occ Nat.eq_dec (actions w s) k)
    /\ (~ In this (actions w s) -> actions w' s = actions w s)
    /\ (forall s', s' <> s -> actions w' s' = actions w s').
Proof.
  intros Hs. exists (torn_down_world this s w).
  split; [now apply _unsubscribe_run|].
  unfold torn_down_world; cbn [actions]. rewrite upd_same.
  split; [reflexivity|].
  split.
  { rewrite remove_first_count. now destruct (Nat.eq_dec this this). }
  split.
  { intros k N. rewrite remove_first_count.
    destruct (Nat.eq_dec this k); congruence. }
  split.
  - apply remove_first_absent.
  - intros s' N. now apply upd_other.
Qed.

Lemma _unsubscribe_removes_first_entry_witness :
  let w := new_world 0 idle [3; 0; 5; 0] in
  exists w', _unsubscribe 0 w = Ret tt w' /\ actions w' 0 = [3; 5; 0].
Proof.
  intros w.
  destruct (_unsubscribe_removes_first_entry 0 0 w) as [w' (E & Ea & _)];
    [reflexivity|].
  exists w'. split; [exact E|]. rewrite Ea. reflexivity.
Defined.

(** ** How calls compose *)

Lemma filter_all {A : Type} (p : A -> bool) (l : list A) :
  (forall x, In x l -> p x = true) -> filter p l = l.
Proof.
  induction l as [|x l IH]; cbn; intros H; auto.
  rewrite (H x) by now left. f_equal. apply IH. intros y Hy; apply H; now right.
Qed.

(** Cancelling the timer just requested gives back the interval table. *)
Lemma clear_after_set r s k d :
  runtime_ok r = true ->
  intervals (snd (clearInterval (snd (setInterval r s k d)) (VNum (next_handle r))))
  = intervals r.
Proof.
  intros Hr. apply runtime_ok_spec in Hr. destruct Hr as [_ Hr].
  unfold clearInterval, setInterval; cbn [snd intervals next_handle filter].
  unfold has_handle at 1; cbn [handle value_eqb]. rewrite Z.eqb_refl; cbn [negb].
  apply filter_all. intros t Ht. specialize (Hr t Ht).
  unfold has_handle; cbn. apply negb_true_iff, Z.eqb_neq. lia.
Qed.

(** X8 - [schedule] then [unsubscribe] leaves no timer behind: on an open
    action that holds no timer, [schedule] followed by [unsubscribe] requests
    one timer and cancels that same timer; the table of registered timers is
    what it was before, and the action is closed with its fields cleared. *)
Theorem schedule_then_unsubscribe this s st dl w :
  closed (heap w this) = false ->
  scheduler (heap w this) = Some s ->
  is_nullish (id (heap w this)) = true ->
  runtime_ok (root w) = true ->
  exists w1 w2,
    schedule this st dl w = Ret this w1
    /\ unsubscribe this w1 = Ret tt w2
    /\ intervals (root w2) = intervals (root w)
    /\ log (root w2)
       = log (root w)
         ++ [SetInterval (mkTimer (next_handle (root w)) s this
                                  (default_arg dl (VNum 0)));
             ClearInterval (VNum (next_handle (root w)))]
    /\ heap w2 this = mkAction None None true VUndefined VNull VNull false
    /\ actions w2 s = remove_first this (actions w s).
Proof.
  intros Hc Hs Hn Hr.
  set (d := default_arg dl (VNum 0)).
  set (w1 := armed this s d (modify this (noted st d) w)).
  assert (E1 : schedule this st dl w = Ret this w1)
    by now apply schedule_arms.
  assert (Hc1 : closed (heap w1 this) = false) by (unfold w1; fields; auto).
  assert (Hs1 : scheduler (heap w1 this) = Some s) by (unfold w1; fields; auto).
  exists w1, (torn_down_world this s (modify this (set_closed true) w1)).
  split; [exact E1|].
  split; [now apply unsubscribe_open|].
  assert (Ei : id (heap w1 this) = VNum (next_handle (root w)))
    by (unfold w1; fields; reflexivity).
  assert (Er : root w1 = snd (setInterval (root w) s this d))
    by (unfold w1; fields; reflexivity).
  unfold torn_down_world; cbn [root heap actions]. fields.
  rewrite Ei, Er. cbn [is_nullish].
  split; [exact (clear_after_set (root w) s this d Hr)|].
  split.
  { cbn. now rewrite <- app_assoc. }
  split.
  { unfold torn; fields. rewrite Ei. reflexivity. }
  unfold w1; fields. reflexivity.
Qed.

Lemma schedule_then_unsubscribe_witness :
  let w := world_of (schedule 1 (VNum 9) (VNum 10) (new_world 0 idle [0; 1])) in
  exists w1 w2,
    schedule 0 (VNum 1) (VNum 50) w = Ret 0 w1
    /\ unsubscribe 0 w1 = Ret tt w2
    /\ intervals (root w2) = intervals (root w).
Proof.
  intros w.
  destruct (schedule_then_unsubscribe 0 0 (VNum 1) (VNum 50) w)
    as [w1 [w2 (E1 & E2 & Ei & _)]]; try reflexivity.
  exists w1, w2; repeat split; assumption.
Defined.

Lemma schedule_records_delay this st dl w w' :
  world_ok w ->
  closed (heap w this) = false ->
  schedule this st dl w = Ret this w' ->
  delay (heap w' this) = default_arg dl (VNum 0).
Proof.
  intros H Hc E.
  destruct (scheduler (heap w this)) as [s|] eqn:Hs;
    [|now elim (ok_open _ H this Hc)].
  rewrite (schedule_open _ st dl _ _ Hc Hs) in E. injection E as <-.
  cbn zeta.
  repeat match goal with
         | |- context [if ?b then _ else _] => destruct b
         end; fields; reflexivity.
Qed.

(** X9 - [schedule] is idempotent: on an open action of a well-formed store,
    once [schedule(state, delay)] has returned, with a delay that is neither
    [null] nor [NaN], the same call again changes nothing: not the action,
    not the timer, and the runtime is not called. *)
Theorem schedule_idempotent this st dl w w1 :
  world_ok w ->
  closed (heap w this) = false ->
  default_arg dl (VNum 0) <> VNull ->
  default_arg dl (VNum 0) <> VNaN ->
  schedule this st dl w = Ret this w1 ->
  schedule this st dl w1 = Ret this w1.
Proof.
  intros H Hc N1 N2 E.
  destruct (schedule_ok this st dl w H) as [w1' [E' H1]].
  rewrite E in E'. injection E' as <-.
  destruct (schedule_writes this st dl w Hc) as (Es & Hp & Hc1 & _).
  rewrite E in Es, Hp, Hc1; cbn [world_of] in Es, Hp, Hc1.
  destruct (schedule_open_holds_timer _ _ _ _ _ H Hc E) as (_ & Hi & _).
  pose proof (schedule_records_delay _ _ _ _ _ H Hc E) as Ed.
  destruct (scheduler (heap w1 this)) as [s|] eqn:Hs;
    [|now elim (ok_open _ H1 this Hc1)].
  rewrite (schedule_open _ st dl _ _ Hc1 Hs). cbn zeta.
  unfold survives. rewrite Hi, (keeps_same _ _ Ed N1 N2); cbn [negb andb orb].
  fields. rewrite (ok_id_truthy _ _ H1 Hi). f_equal.
  apply modify_unchanged.
  revert Es Hp Ed. generalize (default_arg dl (VNum 0)).
  destruct (heap w1 this); cbn. intros d -> -> ->. reflexivity.
Qed.

Lemma schedule_idempotent_witness :
  let w := new_world 0 idle [0] in
  let w1 := world_of (schedule 0 (VNum 1) (VNum 50) w) in
  schedule 0 (VNum 1) (VNum 50) w1 = Ret 0 w1.
Proof.
  intros w w1.
  destruct (schedule_ok 0 (VNum 1) (VNum 50) w) as [w' [E H]].
  { apply new_world_ok. repeat constructor; cbn; tauto. }
  clear H.
  assert (Hw : world_ok w).
  { apply new_world_ok. repeat constructor; cbn; tauto. }
  assert (E1 : schedule 0 (VNum 1) (VNum 50) w = Ret 0 w1)
    by (unfold w1; rewrite E; reflexivity).
  apply (schedule_idempotent 0 (VNum 1) (VNum 50) w w1 Hw eq_refl);
    [discriminate | discriminate | exact E1].
Defined.

Lemma filter_filter_comm {A : Type} (p q : A -> bool) (l : list A) :
  filter p (filter q l) = filter q (filter p l).
Proof.
  induction l as [|x l IH]; cbn; auto.
  destruct (p x) eqn:Ep, (q x) eqn:Eq; cbn; rewrite ?Ep, ?Eq, IH; reflexivity.
Qed.

Lemma timers_of_set this r s k d :
  k <> this -> timers_of this (snd (setInterval r s k d)) = timers_of this r.
Proof.
  intros N. unfold timers_of; cbn.
  apply Nat.eqb_neq in N. now rewrite N.
Qed.

(** Cancelling the timer of one action leaves the timers of the others. *)
Lemma timers_of_clear this k w :
  world_ok w -> k <> this ->
  timers_of this (snd (clearInterval (root w) (id (heap w k))))
  = timers_of this (root w).
Proof.
  intros H N. unfold timers_of; cbn [clearInterval snd intervals].
  rewrite filter_filter_comm. apply filter_all.
  intros t Ht. apply filter_In in Ht. destruct Ht as [Ht Eb].
  apply Nat.eqb_eq in Eb. apply negb_true_iff.
  destruct (has_handle (id (heap w k)) t) eqn:Eh; auto.
  apply has_handle_true in Eh.
  assert (Hn : is_nullish (id (heap w k)) = false) by now rewrite Eh.
  destruct (ok_id _ H k Hn) as [t' (Ht' & Eb' & Ei')].
  assert (t = t').
  { apply (NoDup_map_inj handle (intervals (root w))); auto.
    - exact (ok_handles _ H).
    - congruence. }
  subst t'. congruence.
Qed.

(** X10 - A call on one action leaves the others alone: on a well-formed
    store, [schedule] or [unsubscribe] on an action changes no field of
    another action, neither cancels nor adds a timer bound to another action,
    and neither puts another action into nor takes it out of a scheduler's
    array. *)
Theorem other_actions_untouched this c w w' :
  world_ok w ->
  call_target c <> this ->
  run_call c w = Ret tt w' ->
  heap w' this = heap w this
  /\ timers_of this (root w') = timers_of this (root w)
  /\ (forall s, In this (actions w' s) <-> In this (actions w s)).
Proof.
  intros H N E.
  destruct c as [k st dl|k]; cbn [call_target run_call] in N, E.
  - unfold bind in E.
    destruct (schedule_ok k st dl w H) as [w2 [E2 _]]. rewrite E2 in E.
    injection E as <-.
    split; [exact (schedule_frame this k st dl w w2 H N E2)|].
    destruct (closed (heap w k)) eqn:Hc.
    { rewrite (schedule_closed _ st dl _ Hc) in E2. injection E2 as <-.
      split; [reflexivity | intros s; reflexivity]. }
    destruct (scheduler (heap w k)) as [s|] eqn:Hs;
      [|now elim (ok_open _ H k Hc)].
    rewrite (schedule_open _ st dl _ _ Hc Hs) in E2. injection E2 as <-.
    cbn zeta.
    repeat match goal with
           | |- context [if ?b then _ else _] => destruct b
           end; fields;
      rewrite ?timers_of_set, ?timers_of_clear by assumption;
      (split; [reflexivity | intros s'; reflexivity]).
  - split; [exact (unsubscribe_frame this k w w' H N E)|].
    destruct (closed (heap w k)) eqn:Hc.
    { rewrite (unsubscribe_closed _ _ Hc) in E. injection E as <-.
      split; [reflexivity | intros s; reflexivity]. }
    destruct (scheduler (heap w k)) as [s|] eqn:Hs;
      [|now elim (ok_open _ H k Hc)].
    rewrite (unsubscribe_open _ _ _ Hc Hs) in E. injection E as <-.
    unfold torn_down_world; cbn [root actions]. fields.
    split.
    + destruct (is_nullish (id (heap w k))); [reflexivity|].
      now apply timers_of_clear.
    + intros s'. unfold upd. destruct (s' =? s)%nat eqn:Es; [|reflexivity].
      apply Nat.eqb_eq in Es; subst s'. split.
      * apply remove_first_In.
      * apply remove_first_other. auto.
Qed.

Lemma other_actions_untouched_witness :
  let w := world_of (schedule 1 (VNum 9) (VNum 10) (new_world 0 idle [0; 1])) in
  let w' := world_of (unsubscribe 0 w) in
  heap w' 1 = heap w 1 /\ timers_of 1 (root w') = timers_of 1 (root w).
Proof.
  intros w w'.
  destruct (schedule_ok 1 (VNum 9) (VNum 10) (new_world 0 idle [0; 1]))
    as [w0 [E H]].
  { apply new_world_ok. repeat constructor; cbn; intuition lia. }
  assert (Hw : world_ok w) by (unfold w; rewrite E; exact H).
  destruct (unsubscribe_ok 0 w Hw) as [w2 [E2 _]].
  destruct (other_actions_untouched 1 (CallUnsubscribe 0) w w2 Hw)
    as (X1 & X2 & _); [discriminate | exact E2 |].
  unfold w'. rewrite E2. split; assumption.
Defined.

(** ** Delays that never reuse a timer *)

Lemma keeps_null a : keeps a VNull = false.
Proof. reflexivity. Qed.

Lemma keeps_nan a : keeps a VNaN = false.
Proof.
  unfold keeps. apply andb_false_iff; right.
  unfold strict_eq. now destruct (delay a).
Qed.

(** X11 - A [null] or [NaN] delay never reuses the timer: on an open action
    that holds a live timer, [schedule] with the delay [null] or [NaN]
    cancels that timer and requests a new one, whatever delay the action
    recorded, the same one included. *)
Theorem schedule_null_or_nan_replaces this s st D w :
  closed (heap w this) = false ->
  scheduler (heap w this) = Some s ->
  runtime_ok (root w) = true ->
  live (root w) (id (heap w this)) = true ->
  D = VNull \/ D = VNaN ->
  exists w',
    schedule this st D w = Ret this w'
    /\ delay (heap w' this) = D
    /\ id (heap w' this) = VNum (next_handle (root w))
    /\ id (heap w' this) <> id (heap w this)
    /\ log (root w')
       = log (root w)
         ++ [ClearInterval (id (heap w this));
             SetInterval (mkTimer (next_handle (root w)) s this D)]
    /\ live (root w') (id (heap w this)) = false
    /\ live (root w') (id (heap w' this)) = true.
Proof.
  intros Hc Hs Hr Hl HD.
  destruct (live_handle _ _ Hr Hl) as [h [Eh Hh]].
  assert (Hn : is_nullish (id (heap w this)) = false) by now rewrite Eh.
  assert (Ed : default_arg D (VNum 0) = D) by (destruct HD; subst; reflexivity).
  assert (Hk : keeps (heap w this) D = false)
    by (destruct HD; subst; [apply keeps_null | apply keeps_nan]).
  eexists; split; [apply (schedule_open _ st D _ _ Hc Hs)|].
  cbn zeta. rewrite Ed. unfold survives.
  rewrite Hn, Hk; cbn [negb andb orb].
  fields. cbn [truthy]. fields. cbn [next_handle clearInterval snd].
  repeat split.
  - rewrite Eh; intros E; injection E; lia.
  - cbn. now rewrite <- app_assoc.
  - rewrite live_set_other.
    + apply live_after_clear.
    + cbn. rewrite Eh; intros E; injection E; lia.
  - apply (live_after_set (snd (clearInterval (root w) (id (heap w this))))).
Qed.

Lemma schedule_null_or_nan_replaces_witness :
  let w := world_of (schedule 0 (VNum 1) VNaN (new_world 0 idle [0])) in
  exists w', schedule 0 (VNum 2) VNaN w = Ret 0 w'
             /\ id (heap w' 0) <> id (heap w 0).
Proof.
  intros w.
  destruct (schedule_null_or_nan_replaces 0 0 (VNum 2) VNaN w)
    as [w' (E & _ & _ & N & _)]; try reflexivity.
  { right; reflexivity. }
  exists w'; split; assumption.
Defined.

(** ** Work that cancels its own action *)

(** X12 - Work that ends by cancelling its own action: when the work of an
    open action ends with [unsubscribe] on that action and returns,
    [execute] returns [undefined] and the store as the work left it: the
    post-execution check finds no [id] and cancels nothing a second time;
    the action is closed, in no array, with no timer registered. *)
Theorem execute_work_unsubscribes_itself this st dl wk cs w :
  world_ok w ->
  closed (heap w this) = false ->
  work (heap w this) = Some wk ->
  wk this st = (cs ++ [CallUnsubscribe this], Normal) ->
  exists w1,
    call_work this st (modify this (set_pending false) w) = Ret tt w1
    /\ execute this st dl w = Ret VUndefined w1
    /\ closed (heap w1 this) = true
    /\ torn_down (heap w1 this)
    /\ timers_of this (root w1) = []
    /\ (forall s, ~ In this (actions w1 s)).
Proof.
  intros H Hc Hw Hk.
  set (w0 := modify this (set_pending false) w).
  assert (H0 : world_ok w0) by (apply modify_fields_ok; auto).
  assert (Hw0 : work (heap w0 this) = Some wk)
    by (unfold w0; now rewrite modify_heap_same).
  destruct (run_calls_ok cs w0 H0) as [w' [E' H']].
  destruct (unsubscribe_ok this w' H') as [w1 [E1 H1]].
  assert (Ew : call_work this st w0 = Ret tt w1).
  { rewrite (call_work_run _ _ _ _ _ _ Hw0 Hk).
    unfold bind at 1. rewrite run_calls_app. unfold bind at 1. rewrite E'.
    cbn [run_calls run_call]. unfold bind. now rewrite E1. }
  assert (Hc1 : closed (heap w1 this) = true).
  { pose proof (unsubscribe_closes this w') as X. now rewrite E1 in X. }
  pose proof (ok_closed _ H1 this Hc1) as T.
  assert (Hi : is_nullish (id (heap w1 this)) = true) by apply T.
  exists w1. split; [exact Ew|].
  split.
  { rewrite (execute_returned _ _ dl _ _ Hc Ew). f_equal.
    now apply settled_no_timer. }
  split; [exact Hc1|]. split; [exact T|].
  split; [now apply timers_of_none|].
  intros s Hin. destruct (ok_queue _ H1 s this Hin) as [X _]. congruence.
Qed.

Lemma execute_work_unsubscribes_itself_witness :
  let quitting : Work := fun this _ => ([CallUnsubscribe this], Normal) in
  let w := world_of (schedule 0 (VNum 1) (VNum 50) (new_world 0 quitting [0])) in
  exists w1, execute 0 (VNum 1) (VNum 50) w = Ret VUndefined w1
             /\ closed (heap w1 0) = true
             /\ timers_of 0 (root w1) = [].
Proof.
  intros quitting w.
  destruct (schedule_ok 0 (VNum 1) (VNum 50) (new_world 0 quitting [0]))
    as [w' [E H]].
  { apply new_world_ok. repeat constructor; cbn; tauto. }
  assert (Hw : world_ok w) by (unfold w; rewrite E; exact H).
  destruct (execute_work_unsubscribes_itself 0 (VNum 1) (VNum 50) quitting [] w Hw)
    as [w1 (_ & E1 & Hc & _ & Ht & _)]; try reflexivity.
  exists w1; repeat split; assumption.
Defined.

(** ** An action that holds no timer *)

(** X13 - [execute] on an action that holds no timer: when an open action
    has no [id] (as the constructor leaves it, or after an earlier [execute]
    dropped the timer) and its work returns without a call on that action,
    [execute] returns [undefined] and the store as the work left it: of the
    action it only cleared [pending], and it asked the runtime nothing. *)
Theorem execute_without_timer this st dl wk cs w :
  world_ok w ->
  closed (heap w this) = false ->
  work (heap w this) = Some wk ->
  wk this st = (cs, Normal) ->
  Forall (fun c => call_target c <> this) cs ->
  is_nullish (id (heap w this)) = true ->
  exists w1,
    run_calls cs (modify this (set_pending false) w) = Ret tt w1
    /\ execute this st dl w = Ret VUndefined w1
    /\ heap w1 this = set_pending false (heap w this)
    /\ timers_of this (root w1) = []
    /\ (cs = [] -> root w1 = root w /\ actions w1 = actions w).
Proof.
  intros H Hc Hw Hk F Hn.
  set (w0 := modify this (set_pending false) w).
  assert (H0 : world_ok w0) by (apply modify_fields_ok; auto).
  assert (Hw0 : work (heap w0 this) = Some wk)
    by (unfold w0; now rewrite modify_heap_same).
  destruct (run_calls_ok cs w0 H0) as [w1 [E1 H1]].
  assert (Ew : call_work this st w0 = Ret tt w1).
  { rewrite (call_work_run _ _ _ _ _ _ Hw0 Hk). unfold bind. now rewrite E1. }
  assert (Eh : heap w1 this = set_pending false (heap w this)).
  { rewrite (run_calls_frame this cs w0 w1 H0 F E1).
    unfold w0; now rewrite modify_heap_same. }
  assert (Hn1 : is_nullish (id (heap w1 this)) = true) by (rewrite Eh; exact Hn).
  exists w1. split; [exact E1|].
  split.
  { rewrite (execute_returned _ _ dl _ _ Hc Ew). f_equal.
    now apply settled_no_timer. }
  split; [exact Eh|]. split; [now apply timers_of_none|].
  intros ->. cbn in E1. injection E1 as <-. split; reflexivity.
Qed.

Lemma execute_without_timer_witness :
  let w := new_world 0 idle [0] in
  exists w1, execute 0 (VNum 1) (VNum 0) w = Ret VUndefined w1
             /\ root w1 = root w.
Proof.
  intros w.
  destruct (execute_without_timer 0 (VNum 1) (VNum 0) idle [] w)
    as [w1 (_ & E & _ & _ & X)]; try reflexivity.
  - apply new_world_ok. repeat constructor; cbn; tauto.
  - constructor.
  - exists w1. split; [exact E|]. now apply X.
Defined.

(** ** What [schedule] leaves *)

(** X14 - After [schedule], one timer at the new delay: on an open action of
    a well-formed store whose timers run at the recorded delays, once
    [schedule(state, delay)] has returned the action records [state] and
    [delay], is pending, and exactly one timer bound to it is registered:
    its handle is the action's [id], its period is [delay] and it flushes
    the action's scheduler. *)
Theorem schedule_leaves_one_timer this st dl w w' :
  world_ok w -> timers_match w ->
  closed (heap w this) = false ->
  schedule this st dl w = Ret this w' ->
  state (heap w' this) = st
  /\ delay (heap w' this) = default_arg dl (VNum 0)
  /\ pending (heap w' this) = true
  /\ exists t,
       timers_of this (root w') = [t]
       /\ id (heap w' this) = VNum (handle t)
       /\ period t = default_arg dl (VNum 0)
       /\ scheduler (heap w this) = Some (flush_scheduler t).
Proof.
  intros H M Hc E.
  destruct (schedule_ok this st dl w H) as [w2 [E2 H']].
  rewrite E in E2. injection E2 as <-.
  pose proof (schedule_match this st dl w w' H M E) as M'.
  destruct (schedule_writes this st dl w Hc) as (Es & Hp & _ & _ & Hs).
  rewrite E in Es, Hp, Hs; cbn [world_of] in Es, Hp, Hs.
  pose proof (schedule_records_delay _ _ _ _ _ H Hc E) as Ed.
  destruct (schedule_open_holds_timer _ _ _ _ _ H Hc E) as (_ & Hi & _).
  repeat split; auto.
  pose proof (timers_of_at_most_one w' this H') as L.
  pose proof (timers_of_some w' this H' Hi) as N.
  destruct (timers_of this (root w')) as [|t [|t' l]] eqn:Et;
    [congruence | | cbn in L; lia].
  exists t. split; [reflexivity|].
  assert (Ht : In t (timers_of this (root w'))) by (rewrite Et; now left).
  apply timers_of_In in Ht. destruct Ht as [Ht Eb].
  destruct (M' t Ht) as [Mp Ms]. rewrite Eb in Mp, Ms.
  pose proof (ok_timer _ H' t Ht) as Ei. rewrite Eb in Ei.
  repeat split; congruence.
Qed.

Lemma schedule_leaves_one_timer_witness :
  let w := new_world 0 idle [0] in
  let w' := world_of (schedule 0 (VNum 1) (VNum 50) w) in
  exists t, timers_of 0 (root w') = [t] /\ period t = VNum 50.
Proof.
  intros w w'.
  assert (Hw : world_ok w).
  { apply new_world_ok. repeat constructor; cbn; tauto. }
  destruct (schedule_ok 0 (VNum 1) (VNum 50) w Hw) as [w2 [E _]].
  assert (E1 : schedule 0 (VNum 1) (VNum 50) w = Ret 0 w')
    by (unfold w'; rewrite E; reflexivity).
  assert (M : timers_match w) by (intros t []).
  destruct (schedule_leaves_one_timer 0 (VNum 1) (VNum 50) w w' Hw M eq_refl E1)
    as (_ & _ & _ & t & Et & _ & Ep & _).
  exists t. split; assumption.
Defined.

(** X15 - The runtime calls of one [schedule]: on an action with a
    scheduler whose [id] is absent or a handle, one call of [schedule] asks
    the runtime nothing, or for one timer, or to cancel the timer the action
    held and then for one timer: it never cancels without requesting a
    replacement, never requests twice, and cancels no handle but the
    action's own. *)
Theorem schedule_runtime_calls this s st dl w :
  scheduler (heap w this) = Some s ->
  is_nullish (id (heap w this)) = true \/ truthy (id (heap w this)) = true ->
  exists w',
    schedule this st dl w = Ret this w'
    /\ let request :=
         SetInterval (mkTimer (next_handle (root w)) s this
                              (default_arg dl (VNum 0))) in
       log (root w') = log (root w)
       \/ log (root w') = log (root w) ++ [request]
       \/ log (root w')
          = log (root w) ++ [ClearInterval (id (heap w this)); request].
Proof.
  intros Hs Hi.
  destruct (closed (heap w this)) eqn:Hc.
  { exists w. split; [now apply schedule_closed | now left]. }
  eexists; split; [apply (schedule_open _ st dl _ _ Hc Hs)|].
  cbn zeta. unfold survives.
  destruct (is_nullish (id (heap w this))) eqn:Hn; cbn [negb andb orb].
  - fields. rewrite (nullish_falsy _ Hn). fields. right; left. reflexivity.
  - destruct Hi as [Hi|Hi]; [discriminate|].
    destruct (keeps (heap w this) (default_arg dl (VNum 0))); cbn [orb].
    + fields. rewrite Hi. fields. now left.
    + fields. cbn [truthy]. fields. right; right.
      cbn. now rewrite <- app_assoc.
Qed.

Lemma schedule_runtime_calls_witness :
  let w := world_of (schedule 0 (VNum 1) (VNum 100) (new_world 0 idle [0])) in
  exists w', schedule 0 (VNum 2) (VNum 250) w = Ret 0 w'.
Proof.
  intros w.
  destruct (schedule_runtime_calls 0 0 (VNum 2) (VNum 250) w)
    as [w' [E _]]; try reflexivity.
  - right; reflexivity.
  - exists w'; exact E.
Defined.
